(** * Stylometric feature functions of ataurus: a shallow embedding

    The development follows [ataurus/features/functions.py],
    [ataurus/serialize/model.py] and the command dispatch of
    [ataurus/main.py].  Python values are modelled as follows:

    - a [str] is the list of its Unicode code points ([N]), so that [len]
      is [length];
    - [int / int] is Python's true division: it raises [ZeroDivisionError]
      on a zero divisor and otherwise yields the exact quotient, kept as a
      reduced rational (rounding to binary64 is not modelled: the
      statements are about single quotients, their bounds and the integer
      counts behind them, not about exact sums of floats);
    - [None], [numpy.nan] and raised exceptions are explicit constructors;
    - a [collections.Counter] is a finite map from keys to counts;
    - compiled [re] patterns are terms of a small regular-expression
      syntax, run by a backtracking matcher with Python's priorities
      (ordered alternation, greedy repetition, leftmost non-overlapping
      scanning for [findall]). *)

From Stdlib Require Import ZArith NArith QArith Lia List Ascii.
From stdpp Require Import gmap strings list fin_maps.

Local Open Scope nat_scope.

(** ** Python strings *)

Module PyStr.

(** A code point. *)
Definition char := N.
Definition str := list char.

(** Source literals are written as UTF-8 text; [decode] turns the bytes
    of such a literal into code points. *)
Fixpoint decode (bs : list N) : str :=
  match bs with
  | [] => []
  | b0 :: r0 =>
      if (b0 <? 0x80)%N then b0 :: decode r0
      else if (b0 <? 0xE0)%N then
        match r0 with
        | b1 :: r1 => ((b0 - 0xC0) * 64 + (b1 - 0x80))%N :: decode r1
        | _ => []
        end
      else if (b0 <? 0xF0)%N then
        match r0 with
        | b1 :: b2 :: r2 =>
            ((b0 - 0xE0) * 4096 + (b1 - 0x80) * 64 + (b2 - 0x80))%N :: decode r2
        | _ => []
        end
      else
        match r0 with
        | b1 :: b2 :: b3 :: r3 =>
            ((b0 - 0xF0) * 262144 + (b1 - 0x80) * 4096
             + (b2 - 0x80) * 64 + (b3 - 0x80))%N :: decode r3
        | _ => []
        end
  end.

Fixpoint bytes_of (s : string) : list N :=
  match s with
  | EmptyString => []
  | String a s' => Ascii.N_of_ascii a :: bytes_of s'
  end.

Definition py (s : string) : str := decode (bytes_of s).

End PyStr.

Import PyStr.

(** ** Exceptions and numbers *)

Inductive exn := ZeroDivisionError | ValueError | OSError.

Inductive result (A : Type) :=
| Ok (a : A)
| Raise (e : exn).
Arguments Ok {A} a.
Arguments Raise {A} e.

Definition bind {A B} (m : result A) (f : A → result B) : result B :=
  match m with
  | Ok a => f a
  | Raise e => Raise e
  end.

(** [a / b] on two non-negative Python ints (all operands below are
    lengths and counts). *)
Definition truediv (a b : nat) : result Q :=
  match b with
  | O => Raise ZeroDivisionError
  | S b' => Ok (Qred (Z.of_nat a # Pos.of_succ_nat b'))
  end.

(** The exact quotient of two counts, for stating results. *)
Definition quotient (a b : nat) : Q :=
  inject_Z (Z.of_nat a) / inject_Z (Z.of_nat b).

(** The numbers a feature can hold: an [int], a [float], or [numpy.nan]. *)
Inductive pynum :=
| PyInt (z : Z)
| PyFloat (q : Q)
| PyNaN.

(** ** The [re] engine *)

Module Re.

(** The part of the Unicode character database the engine consults. *)
Record ucd := {
  isspace : char → bool;
  isdecimal : char → bool;
  isalnum : char → bool;
  lower : char → char
}.

(** Members of a bracketed set. *)
Inductive citem :=
| CChar (c : char)
| CRange (lo hi : char)
| CSpace          (* \s *)
| CDigit          (* \d *)
| CWord           (* \w *)
| CNotWord.       (* \W *)

(** One-character patterns. *)
Inductive atom :=
| Lit (c : char)
| Any                                   (* . without DOTALL *)
| OneOf (negate : bool) (items : list citem).

(** Patterns.  Every quantifier of the source applies to a one-character
    pattern, so [Repeat] takes an [atom]. *)
Inductive regex :=
| Atom (a : atom)
| Seq (r1 r2 : regex)
| Alt (r1 r2 : regex)
| Group (r : regex)
| Repeat (a : atom) (lo : nat) (hi : option nat)
| WordB.                                (* \b *)

Section Engine.
Variable U : ucd.
(** [re.IGNORECASE] *)
Variable ignorecase : bool.

Definition isword (c : char) : bool := isalnum U c || (c =? 0x5F)%N.

Definition casefold (c : char) : char := if ignorecase then lower U c else c.

(** Code points [lo], [lo+1], ... ([n] of them). *)
Fixpoint span (lo : char) (n : nat) : list char :=
  match n with
  | O => []
  | S n' => lo :: span (N.succ lo) n'
  end.

(** Under IGNORECASE the subject character is lowered and compared with
    the lowered members of the set; categories are tested on the
    lowered character.  CPython also treats as equal the few characters
    that share an uppercase without sharing a lowercase (for Cyrillic,
    U+1C80 to U+1C86); that closure is left out, and no statement below
    involves those characters. *)
Definition citem_match (i : citem) (c : char) : bool :=
  match i with
  | CChar x => (casefold x =? casefold c)%N
  | CRange lo hi =>
      if ignorecase
      then existsb (λ x, (lower U x =? lower U c)%N)
                   (span lo (N.to_nat (N.succ hi - lo)))
      else (lo <=? c)%N && (c <=? hi)%N
  | CSpace => isspace U (casefold c)
  | CDigit => isdecimal U (casefold c)
  | CWord => isword (casefold c)
  | CNotWord => negb (isword (casefold c))
  end.

Definition atom_match (a : atom) (c : char) : bool :=
  match a with
  | Lit x => (casefold x =? casefold c)%N
  | Any => negb (c =? 0x0A)%N
  | OneOf negate items => xorb negate (existsb (λ i, citem_match i c) items)
  end.

(** [\b]: exactly one side of the position is a word character. *)
Definition at_boundary (prev : option char) (s : str) : bool :=
  let before := match prev with Some c => isword c | None => false end in
  let after := match s with c :: _ => isword c | [] => false end in
  xorb before after.

Definition dec_hi (hi : option nat) : option nat :=
  match hi with Some h => Some (pred h) | None => None end.

(** Greedy repetition of an atom: take one more character if allowed,
    fall back to stopping here. *)
Fixpoint repeat_match {X} (a : atom) (lo : nat) (hi : option nat)
    (prev : option char) (s : str)
    (k : option char → str → option X) : option X :=
  let stop := match lo with O => k prev s | S _ => None end in
  match hi with
  | Some O => stop
  | _ =>
      match s with
      | c :: s' =>
          if atom_match a c then
            match repeat_match a (pred lo) (dec_hi hi) (Some c) s' k with
            | Some x => Some x
            | None => stop
            end
          else stop
      | [] => stop
      end
  end.

(** Backtracking matcher in continuation-passing style: [k] receives
    the character before the current position and the remaining
    subject. *)
Fixpoint rmatch {X} (r : regex) (prev : option char) (s : str)
    (k : option char → str → option X) : option X :=
  match r with
  | Atom a =>
      match s with
      | c :: s' => if atom_match a c then k (Some c) s' else None
      | [] => None
      end
  | Seq r1 r2 => rmatch r1 prev s (λ prev' s', rmatch r2 prev' s' k)
  | Alt r1 r2 =>
      match rmatch r1 prev s k with
      | Some x => Some x
      | None => rmatch r2 prev s k
      end
  | Group r' => rmatch r' prev s k
  | Repeat a lo hi => repeat_match a lo hi prev s k
  | WordB => if at_boundary prev s then k prev s else None
  end.

(** Length of the preferred match starting at the current position;
    with [must_advance] an empty match is refused. *)
Definition match_len (must_advance : bool) (r : regex)
    (prev : option char) (s : str) : option nat :=
  rmatch r prev s
    (λ _ rest,
       let n := length s - length rest in
       if must_advance && (n =? 0) then None else Some n).

(** The scanner of [findall]/[finditer]: [pos] is the current index,
    [skip] the number of characters still inside the previous match.
    After an empty match the engine retries the same position for a
    non-empty one. *)
Fixpoint scan (r : regex) (pos skip : nat) (prev : option char)
    (s : str) : list (nat * str) :=
  match s with
  | [] =>
      match skip, match_len false r prev [] with
      | O, Some _ => [(pos, [])]
      | _, _ => []
      end
  | c :: s' =>
      match skip with
      | S j => scan r (S pos) j (Some c) s'
      | O =>
          match match_len false r prev s with
          | Some (S n) => (pos, take (S n) s) :: scan r (S pos) n (Some c) s'
          | Some O =>
              (pos, []) ::
              match match_len true r prev s with
              | Some n => (pos, take n s) :: scan r (S pos) (pred n) (Some c) s'
              | None => scan r (S pos) 0 (Some c) s'
              end
          | None => scan r (S pos) 0 (Some c) s'
          end
      end
  end.

(** [pattern.finditer(text)]: start index and text of every match. *)
Definition finditer (r : regex) (text : str) : list (nat * str) :=
  scan r 0 0 None text.

(** [pattern.findall(text)] (one entry per match). *)
Definition findall (r : regex) (text : str) : list str :=
  (finditer r text).*2.

(** [pattern.search(text)] as a truth value. *)
Definition search (r : regex) (text : str) : bool :=
  match finditer r text with
  | [] => false
  | _ :: _ => true
  end.

(** Does some match of [r] in [text] cover index [i]? *)
Definition covers (r : regex) (text : str) (i : nat) : bool :=
  existsb (λ m, (m.1 <=? i) && (i <? m.1 + length m.2)) (finditer r text).

End Engine.

(** Sequences and alternations written as in the pattern text. *)
Fixpoint seq_of (rs : list regex) (last : regex) : regex :=
  match rs with
  | [] => last
  | r :: rs' => Seq r (seq_of rs' last)
  end.

Fixpoint alt_of (rs : list regex) (last : regex) : regex :=
  match rs with
  | [] => last
  | r :: rs' => Alt r (alt_of rs' last)
  end.

(** The character tables on Basic Latin and the basic Cyrillic block
    (U+0400 to U+045F), with the Unicode white space; used to run the
    worked examples.  Code points outside these ranges are classified as
    not alphanumeric and are their own lowercase. *)
Definition between (lo hi c : char) : bool := (lo <=? c)%N && (c <=? hi)%N.
Arguments between (lo hi c)%_N.

Definition latin_cyrillic : ucd := {|
  isspace c :=
    between 0x09 0x0D c || between 0x1C 0x20 c || (c =? 0x85)%N
    || (c =? 0xA0)%N || (c =? 0x1680)%N || between 0x2000 0x200A c
    || between 0x2028 0x2029 c || (c =? 0x202F)%N || (c =? 0x205F)%N
    || (c =? 0x3000)%N;
  isdecimal c := between 0x30 0x39 c;
  isalnum c :=
    between 0x30 0x39 c || between 0x41 0x5A c || between 0x61 0x7A c
    || between 0x400 0x45F c;
  lower c :=
    if between 0x41 0x5A c then (c + 32)%N
    else if between 0x410 0x42F c then (c + 32)%N
    else if between 0x400 0x40F c then (c + 80)%N
    else c
|}.

End Re.

Import Re.

(** A compiled pattern: [re.compile(pattern, flags)]. *)
Record pattern := compile {
  pat : regex;
  IGNORECASE : bool
}.

Definition pattern_findall (U : ucd) (p : pattern) (text : str) : list str :=
  findall U (IGNORECASE p) (pat p) text.

Definition pattern_search (U : ucd) (p : pattern) (text : str) : bool :=
  search U (IGNORECASE p) (pat p) text.

Definition pattern_covers (U : ucd) (p : pattern) (text : str) (i : nat) : bool :=
  covers U (IGNORECASE p) (pat p) text i.

(** ** Containers *)

(** [collections.Counter(l)]: keys are counted from left to right. *)
Definition incr {K} `{Countable K} (m : gmap K nat) (x : K) : gmap K nat :=
  <[x := S (default 0 (m !! x))]> m.

Definition Counter {K} `{Countable K} (l : list K) : gmap K nat :=
  fold_left incr l ∅.

(** [counter.get(k, d)] *)
Definition counter_get {K} `{Countable K} (m : gmap K nat) (k : K) (d : nat) : nat :=
  default d (m !! k).

(** [sum(counter.values())] *)
Definition values_sum {K} `{Countable K} (m : gmap K nat) : nat :=
  map_fold (λ _ v acc, v + acc) 0 m.

(** [dict.fromkeys(keys, v)] *)
Definition fromkeys {V} (keys : list string) (v : V) : gmap string V :=
  list_to_map ((λ k, (k, v)) <$> keys).

(** A loop that appends one computed element per item and stops at the
    first exception. *)
Fixpoint for_each {A B} (f : A → result B) (l : list A) : result (list B) :=
  match l with
  | [] => Ok []
  | x :: l' =>
      bind (f x) (λ y, bind (for_each f l') (λ ys, Ok (y :: ys)))
  end.

(** [numpy.array(result).reshape(-1, 1)] *)
Definition reshape_column {A} (result : list A) : list (list A) :=
  (λ x, [x]) <$> result.

(** ** The patterns of [features/functions.py] *)

Definition ch (a : Ascii.ascii) : char := Ascii.N_of_ascii a.
Arguments ch a%_char.

(** [(...)|(\?!)|(\?\.{2,3})|(!\.{2,3})|(!!!)|([….?!])].  The dots of the
    first alternative are not escaped in the source: each is [Any]. *)
Definition DEFINITIVE_PUNCTS : pattern :=
  compile
    (alt_of
       [ Group (seq_of [Atom Any; Atom Any] (Atom Any));
         Group (Seq (Atom (Lit (ch "?"))) (Atom (Lit (ch "!"))));
         Group (Seq (Atom (Lit (ch "?"))) (Repeat (Lit (ch ".")) 2 (Some 3)));
         Group (Seq (Atom (Lit (ch "!"))) (Repeat (Lit (ch ".")) 2 (Some 3)));
         Group (seq_of [Atom (Lit (ch "!")); Atom (Lit (ch "!"))]
                       (Atom (Lit (ch "!")))) ]
       (Group (Atom (OneOf false [CChar 0x2026%N; CChar (ch "."); CChar (ch "?");
                               CChar (ch "!")]))))
    false.

(** [[,;:‑–—−-]] *)
Definition DIVIDING_PUNCTS : pattern :=
  compile
    (Atom (OneOf false [CChar (ch ","); CChar (ch ";"); CChar (ch ":");
                     CChar 0x2011%N; CChar 0x2013%N; CChar 0x2014%N;
                     CChar 0x2212%N; CChar (ch "-")]))
    false.

(** [[+$/*%^]] *)
Definition DIGITS_PUNCTS : pattern :=
  compile
    (Atom (OneOf false [CChar (ch "+"); CChar (ch "$"); CChar (ch "/");
                     CChar (ch "*"); CChar (ch "%"); CChar (ch "^")]))
    false.

(** [\b[^\s\d\Wа-яА-ЯёЁ_]+\b] with [re.IGNORECASE] *)
Definition FOREIGN_WORD : pattern :=
  compile
    (seq_of
       [ WordB;
         Repeat (OneOf true [CSpace; CDigit; CNotWord;
                          CRange 0x430%N 0x44F%N; CRange 0x410%N 0x42F%N;
                          CChar 0x451%N; CChar 0x401%N; CChar (ch "_")])
                1 None ]
       WordB)
    true.

(** ** The feature functions *)

Section Features.

(** The character tables of the interpreter. *)
Variable U : ucd.

(** pymorphy2: [morph.parse(x)[0].tag.POS] and
    [morph.parse(x)[0].normal_form]. *)
Variable parse_POS : str → option string.
Variable parse_normal_form : str → str.

(** [POS = list(pymorphy2.MorphAnalyzer().TagClass.PARTS_OF_SPEECH)] *)
Variable POS : list string.

(** [PUNCTUATIONS] of [ataurus.preparing.rules], and the patterns
    compiled from razdel's [BRACKETS], [QUOTES] and [SMILES]. *)
Variable PUNCTUATIONS : pattern.
Variable HIGHLIGHT_PUNCTS : pattern.
Variable SMILES_PUNCTS : pattern.

Definition avg_length (items : list (list str)) : result (list (list pynum)) :=
  bind
    (for_each
       (λ items_ : list str,
          match items_ with
          | [] => Ok PyNaN
          | _ :: _ =>
              bind (truediv (sum_list (length <$> items_)) (length items_))
                   (λ q, Ok (PyFloat q))
          end)
       items)
    (λ result, Ok (reshape_column result)).

(** The body of the loop over texts in [pos_distribution]. *)
Definition pos_distribution_row (tokens_ : list str) : result (list Q) :=
  let pos_tokens := omap parse_POS tokens_ in
  let counter := Counter pos_tokens in
  let all_count := values_sum counter in
  for_each (λ pos, truediv (counter_get counter pos 0) all_count) POS.

Definition pos_distribution (tokens : list (list str)) : result (list (list Q)) :=
  for_each pos_distribution_row tokens.

Definition foreign_words_ratio (tokens : list str) : result (option Q) :=
  match tokens with
  | [] => Ok None
  | _ :: _ =>
      let foreign := filter (λ token, pattern_search U FOREIGN_WORD token = true) tokens in
      bind (truediv (length foreign) (length tokens)) (λ q, Ok (Some q))
  end.

Definition vocabulary_richness (tokens : list str) : result (option Q) :=
  match tokens with
  | [] => Ok None
  | _ :: _ =>
      let normal_tokens := parse_normal_form <$> tokens in
      let counter := Counter normal_tokens in
      bind (truediv (size counter) (length tokens)) (λ q, Ok (Some q))
  end.

(** [len(P.findall(text)) / all_count if all_count else 0] *)
Definition ratio_or_zero (P : pattern) (text : str) (all_count : nat) : result pynum :=
  match all_count with
  | O => Ok (PyInt 0)
  | S _ =>
      bind (truediv (length (pattern_findall U P text)) all_count)
           (λ q, Ok (PyFloat q))
  end.

Definition columns : list string :=
  ["definitive_puncts"; "dividing_puncts"; "highlight_puncts"; "smiles_puncts"]%string.

(** [text] is [None] for a null argument. *)
Definition punctuations_distribution (text : option str)
    : result (gmap string pynum) :=
  match text with
  | None | Some [] => Ok (fromkeys columns (PyInt 0))
  | Some text =>
      let all_count := length (pattern_findall U PUNCTUATIONS text) in
      bind (ratio_or_zero DEFINITIVE_PUNCTS text all_count) (λ v1,
      bind (ratio_or_zero DIVIDING_PUNCTS text all_count) (λ v2,
      bind (ratio_or_zero HIGHLIGHT_PUNCTS text all_count) (λ v3,
      bind (ratio_or_zero SMILES_PUNCTS text all_count) (λ v4,
      bind (ratio_or_zero DIGITS_PUNCTS text all_count) (λ v5,
      Ok (<["digits_puncts"%string := v5]>
          (<["smiles_puncts"%string := v4]>
           (<["highlight_puncts"%string := v3]>
            (<["dividing_puncts"%string := v2]>
             (<["definitive_puncts"%string := v1]> ∅))))))))))
  end.

End Features.

(** ** [serialize/model.py] *)

Section Serialize.

(** Instances of [ataurus.ml.model.Model], and their pickled bytes
    ([pickle.dump] is taken to succeed on every instance). *)
Variable Model : Type.
Variable pickle_dumps : Model → list N.

(** The objects a caller can pass as [model]. *)
Inductive pyobj :=
| ObjNone
| ObjInt (z : Z)
| ObjStr (s : str)
| ObjModel (m : Model).

(** [isinstance(model, Model)] *)
Definition isinstance_Model (o : pyobj) : bool :=
  match o with
  | ObjModel _ => true
  | _ => false
  end.

(** The file system: contents by file name.  [can_open] tells whether
    [open(filename, 'wb')] succeeds for a name. *)
Variable can_open : string → bool.

(** [open(filename, 'wb')] creates or truncates the file. *)
Definition open_wb (filename : string) (fs : gmap string (list N))
    : result unit * gmap string (list N) :=
  if can_open filename then (Ok tt, <[filename := []]> fs)
  else (Raise OSError, fs).

Definition serialize_model (model : pyobj) (filename : string)
    (fs : gmap string (list N)) : result unit * gmap string (list N) :=
  match model with
  | ObjModel m =>
      match open_wb filename fs with
      | (Ok _, fs1) => (Ok tt, <[filename := pickle_dumps m]> fs1)
      | (Raise e, fs1) => (Raise e, fs1)
      end
  | _ => (Raise ValueError, fs)
  end.

End Serialize.

Arguments ObjNone {Model}.
Arguments ObjInt {Model} z.
Arguments ObjStr {Model} s.
Arguments ObjModel {Model} m.

(** ** Quantities used in the statements *)

(** Number of occurrences of [k] in [l]. *)
Definition occurrences {K} `{Countable K} (k : K) (l : list K) : nat :=
  length (filter (λ y, y = k) l).

(** Tokens of a text resolved to the label [pos], and tokens resolved to
    any label. *)
Definition with_label (parse_POS : str → option string) (pos : string)
    (tokens_ : list str) : list str :=
  filter (λ t, parse_POS t = Some pos) tokens_.

Definition resolvable (parse_POS : str → option string)
    (tokens_ : list str) : list str :=
  filter (λ t, is_Some (parse_POS t)) tokens_.

(** The value [avg_length] stores for one sequence. *)
Definition mean_length (items_ : list str) : pynum :=
  match items_ with
  | [] => PyNaN
  | _ :: rest =>
      PyFloat (Qred (Z.of_nat (sum_list (length <$> items_))
                     # Pos.of_succ_nat (length rest)))
  end.

(** Tokens in which [FOREIGN_WORD] finds a match. *)
Definition foreign_tokens (U : ucd) (tokens : list str) : list str :=
  filter (λ token, pattern_search U FOREIGN_WORD token = true) tokens.

(** The value of [count / all_count if all_count else 0]. *)
Definition ratio_value (count all_count : nat) : pynum :=
  match all_count with
  | O => PyInt 0
  | S n => PyFloat (Qred (Z.of_nat count # Pos.of_succ_nat n))
  end.

(** ** Data of the worked examples *)

(** A two-label tag set and a toy analyzer, for the worked examples. *)
Definition toy_POS : list string := ["NOUN"; "VERB"]%string.

Definition toy_parse_POS (t : str) : option string :=
  if decide (t = py "кот") then Some "NOUN"%string
  else if decide (t = py "спит") then Some "VERB"%string
  else None.


(** A toy lemmatizer: "коты" and "кота" are forms of "кот". *)
Definition toy_normal_form (t : str) : str :=
  if decide (t = py "коты") then py "кот"
  else if decide (t = py "кота") then py "кот"
  else t.

(** The texts of the punctuation examples. *)
Definition greeting : str := py "Привет, мир!!!".

Definition remark : str := py "Да, он".

(** A master pattern counting runs of [,] and [!]. *)
Definition comma_bang_runs : pattern :=
  compile (Repeat (OneOf false [CChar (ch ","); CChar (ch "!")]) 1 None) false.

(** ** [deserialize_model] and [main] *)

Section Deserialize.

Variable Model : Type.

(** [pickle.load] on the bytes of a file: the object they encode, or the
    exception raised on bytes that are no pickle. *)
Variable pickle_loads : list N → result (pyobj Model).

(** Whether [open(filename, 'rb')] is permitted on an existing file. *)
Variable can_read : string → bool.

(** [open(filename, 'rb')]: a missing file raises [FileNotFoundError], an
    [OSError]. *)
Definition open_rb (filename : string) (fs : gmap string (list N))
    : result (list N) :=
  match fs !! filename with
  | Some bytes => if can_read filename then Ok bytes else Raise OSError
  | None => Raise OSError
  end.

Definition deserialize_model (filename : string) (fs : gmap string (list N))
    : result (pyobj Model) :=
  match open_rb filename fs with
  | Ok bytes => pickle_loads bytes
  | Raise e => Raise e
  end.

End Deserialize.

Section Main.

(** [pd.DataFrame] and [FeaturesExtractor] values. *)
Variable DataFrame : Type.
Variable Extractor : Type.

(** [Preparator().fit(input_obj)] followed by
    [FeaturesExtractor().fit(tokens, sentences, authors)]. *)
Variable fit_extractor : DataFrame → Extractor.

(** [configurator.input] by the two [isinstance] tests of [main]. *)
Inductive input_obj :=
| InputExtractor (e : Extractor)
| InputDataFrame (df : DataFrame)
| InputOther.

(** The calls [main] makes on its collaborators, in order. *)
Inductive event :=
| ToCache (e : Extractor)            (* configurator.to_cache(extractor) *)
| ModelInfo                          (* configurator.model.info() *)
| PrintFeatures (e : Extractor)      (* print('FEATURES:', extractor.features) *)
| ModelFit (e : Extractor)           (* Model().fit(extractor.X, extractor.y) *)
| ModelSave (output_file : string)   (* model.save(configurator.output_file) *)
| PrintPredictions (e : Extractor).  (* print(configurator.model.predict(extractor.X)) *)

(** How [main] ends: it returns, or reads the local [extractor] before any
    assignment to it. *)
Inductive ending := Returned | UnboundLocalError.

(** The first [if] of [main]: the binding of [extractor], if any. *)
Definition bind_extractor (command : string) (input : input_obj)
    : option Extractor * list event :=
  if bool_decide (command = "train"%string) || bool_decide (command = "predict"%string)
  then
    match input with
    | InputExtractor e => (Some e, [])
    | InputDataFrame df =>
        let extractor := fit_extractor df in (Some extractor, [ToCache extractor])
    | InputOther => (None, [])
    end
  else (None, []).

Definition main (command : string) (input : input_obj) (output_file : string)
    : list event * ending :=
  let '(extractor, trace) := bind_extractor command input in
  if bool_decide (command = "info"%string) then (trace ++ [ModelInfo], Returned)
  else if bool_decide (command = "train"%string) then
    match extractor with
    | Some e =>
        (trace ++ [PrintFeatures e; ModelFit e; ModelSave output_file], Returned)
    | None => (trace, UnboundLocalError)
    end
  else if bool_decide (command = "predict"%string) then
    match extractor with
    | Some e => (trace ++ [PrintPredictions e], Returned)
    | None => (trace, UnboundLocalError)
    end
  else (trace, Returned).

End Main.

Arguments InputExtractor {DataFrame Extractor} e.
Arguments InputDataFrame {DataFrame Extractor} df.
Arguments InputOther {DataFrame Extractor}.
Arguments ToCache {Extractor} e.
Arguments ModelInfo {Extractor}.
Arguments PrintFeatures {Extractor} e.
Arguments ModelFit {Extractor} e.
Arguments ModelSave {Extractor} output_file.
Arguments PrintPredictions {Extractor} e.

(** ** File names and files *)

Section Paths.

Variable Model : Type.
Variable pickle_dumps : Model → list N.
Variable pickle_loads : list N → result (pyobj Model).
Variables can_open can_read : string → bool.

(** The file a name denotes.  [open] interprets a name against the
    current directory and follows [.] and [..] segments and links, so
    several names can denote one file; the file system is keyed by the
    files that names resolve to. *)
Variable resolve : string → string.

(** [serialize_model(model, filename)] and [deserialize_model(filename)]
    on names. *)
Definition serialize_model_path (model : pyobj Model) (filename : string)
    (fs : gmap string (list N)) : result unit * gmap string (list N) :=
  serialize_model Model pickle_dumps can_open model (resolve filename) fs.

Definition deserialize_model_path (filename : string)
    (fs : gmap string (list N)) : result (pyobj Model) :=
  deserialize_model Model pickle_loads can_read (resolve filename) fs.

End Paths.

(** A resolution for the worked examples: a leading [./] is dropped. *)
Definition toy_resolve (name : string) : string :=
  match name with
  | String "."%char (String "/"%char rest) => rest
  | _ => name
  end.

(** A model type with a pickle for the worked examples: a number, stored
    as one byte. *)
Definition toy_dumps (m : nat) : list N := [N.of_nat m].

Definition toy_loads (bytes : list N) : result (pyobj nat) :=
  match bytes with
  | [b] => Ok (ObjModel (N.to_nat b))
  | _ => Raise ValueError
  end.

(** ** Quantities used in the further statements *)

(** Tokens of a text resolved to a label that occurs in [POS]. *)
Definition known_label (parse_POS : str → option string)
    (POS : list string) (t : str) : bool :=
  match parse_POS t with
  | Some pos => bool_decide (pos ∈ POS)
  | None => false
  end.

Definition with_known_label (parse_POS : str → option string)
    (POS : list string) (tokens_ : list str) : list str :=
  filter (λ t, known_label parse_POS POS t = true) tokens_.

(** The alphabets of [DIVIDING_PUNCTS] and [DIGITS_PUNCTS]. *)
Definition DIVIDERS : list char :=
  [ch ","; ch ";"; ch ":"; 0x2011; 0x2013; 0x2014; 0x2212; ch "-"]%N.

Definition SYMBOLS : list char :=
  [ch "+"; ch "$"; ch "/"; ch "*"; ch "%"; ch "^"].

(** The bracketed set of [FOREIGN_WORD]. *)
Definition FOREIGN_CLASS : atom :=
  OneOf true [CSpace; CDigit; CNotWord;
              CRange 0x430%N 0x44F%N; CRange 0x410%N 0x42F%N;
              CChar 0x451%N; CChar 0x401%N; CChar (ch "_")].

(** ASCII letters; and the characters of native words and numbers:
    Russian letters, decimal digits and the underscore. *)
Definition LATIN_LETTERS : list char := span 0x41%N 26 ++ span 0x61%N 26.

Definition NATIVE_CHARS : list char :=
  span 0x410%N 64 ++ [0x401; 0x451]%N ++ span 0x30%N 10 ++ [ch "_"].

(** The matches of a one-character pattern, from index [pos] on. *)
Fixpoint atom_hits (U : ucd) (a : atom) (pos : nat) (s : str)
    : list (nat * str) :=
  match s with
  | [] => []
  | c :: s' =>
      if atom_match U false a c then (pos, [c]) :: atom_hits U a (S pos) s'
      else atom_hits U a (S pos) s'
  end.

(** * Properties *)

(** The literals of the examples, as code points. *)
Lemma greeting_code_points :
  greeting
  = [0x41F; 0x440; 0x438; 0x432; 0x435; 0x442; 0x2C; 0x20; 0x43C; 0x438;
     0x440; 0x21; 0x21; 0x21]%N.
Proof. reflexivity. Qed.

Lemma remark_code_points :
  remark = [0x414; 0x430; 0x2C; 0x20; 0x43E; 0x43D]%N.
Proof. reflexivity. Qed.

(** ** Arithmetic of true division *)

Lemma truediv_succ a b :
  truediv a (S b) = Ok (Qred (Z.of_nat a # Pos.of_succ_nat b)).
Proof. reflexivity. Qed.

Lemma fraction_quotient a b :
  (Z.of_nat a # Pos.of_succ_nat b == quotient a (S b))%Q.
Proof.
  unfold quotient. rewrite Qmake_Qdiv.
  by rewrite Zpos_P_of_succ_nat, <- Nat2Z.inj_succ.
Qed.

Lemma truediv_quotient a b :
  b ≠ 0 → ∃ q, truediv a b = Ok q ∧ (q == quotient a b)%Q.
Proof.
  destruct b as [|b]; [done|]. intros _. eexists. split; [reflexivity|].
  by rewrite Qred_correct, fraction_quotient.
Qed.

Lemma fraction_nonneg a b : (0 <= Z.of_nat a # Pos.of_succ_nat b)%Q.
Proof. unfold Qle. simpl. lia. Qed.

Lemma fraction_le_1 a b : a ≤ S b → (Z.of_nat a # Pos.of_succ_nat b <= 1)%Q.
Proof. intros. unfold Qle. simpl. rewrite Zpos_P_of_succ_nat. lia. Qed.

Lemma fraction_pos a b : 0 < a → (0 < Z.of_nat a # Pos.of_succ_nat b)%Q.
Proof. intros. unfold Qlt. simpl. lia. Qed.

Lemma fraction_eq_1 a b :
  (Z.of_nat a # Pos.of_succ_nat b == 1)%Q ↔ a = S b.
Proof. unfold Qeq. simpl. rewrite Zpos_P_of_succ_nat. lia. Qed.

(** ** Loops *)

Lemma for_each_ok {A B} (f : A → result B) (g : A → B) (l : list A) :
  (∀ x, x ∈ l → f x = Ok (g x)) → for_each f l = Ok (g <$> l).
Proof.
  induction l as [|x l IH]; intros Hf; [done|]. simpl.
  rewrite (Hf x) by left. simpl.
  rewrite IH; [done|]. intros y Hy. apply Hf. by right.
Qed.

(** ** Counters *)

Section CounterFacts.
Context {K : Type} `{Countable K}.
Implicit Types (m : gmap K nat) (l : list K) (k x : K).

Lemma incr_get m x k :
  counter_get (incr m x) k 0
  = counter_get m k 0 + (if decide (x = k) then 1 else 0).
Proof.
  unfold counter_get, incr. destruct (decide (x = k)) as [->|Hne].
  - rewrite lookup_insert_eq. simpl. lia.
  - rewrite lookup_insert_ne by done. lia.
Qed.

Lemma values_sum_incr m x : values_sum (incr m x) = S (values_sum m).
Proof.
  unfold values_sum, incr. destruct (m !! x) as [n|] eqn:Hx; simpl.
  - rewrite <- insert_delete_eq.
    rewrite map_fold_insert_L; [|intros; lia|apply lookup_delete_eq].
    rewrite (map_fold_delete_L _ _ x n m); [lia|intros; lia|done].
  - rewrite map_fold_insert_L; [lia|intros; lia|done].
Qed.

Lemma dom_incr m x : dom (incr m x) = {[x]} ∪ dom m.
Proof. unfold incr. by rewrite dom_insert_L. Qed.

Lemma fold_incr_get l m k :
  counter_get (fold_left incr l m) k 0 = counter_get m k 0 + occurrences k l.
Proof.
  revert m. induction l as [|x l IH]; intros m; simpl.
  - unfold occurrences. simpl. lia.
  - rewrite IH, incr_get. unfold occurrences. rewrite filter_cons.
    destruct (decide (x = k)); simpl; lia.
Qed.

Lemma fold_incr_sum l m :
  values_sum (fold_left incr l m) = values_sum m + length l.
Proof.
  revert m. induction l as [|x l IH]; intros m; simpl; [lia|].
  rewrite IH, values_sum_incr. lia.
Qed.

Lemma fold_incr_dom l m :
  dom (fold_left incr l m) = dom m ∪ list_to_set l.
Proof.
  revert m. induction l as [|x l IH]; intros m; simpl.
  - by rewrite (right_id_L ∅ (∪)).
  - by rewrite IH, dom_incr, (comm_L (∪) {[x]}), (assoc_L (∪)).
Qed.

Lemma Counter_get l k : counter_get (Counter l) k 0 = occurrences k l.
Proof. unfold Counter. by rewrite fold_incr_get. Qed.

Lemma Counter_values_sum l : values_sum (Counter l) = length l.
Proof. unfold Counter. by rewrite fold_incr_sum. Qed.

(** [len(Counter(l))] is the number of distinct elements of [l]. *)
Lemma Counter_size l : size (Counter l) = length (remove_dups l).
Proof.
  rewrite <- size_dom. unfold Counter. rewrite fold_incr_dom.
  rewrite <- (size_list_to_set (C := gset K) (remove_dups l))
    by apply NoDup_remove_dups.
  f_equal. apply set_eq. intros x.
  rewrite elem_of_union, !elem_of_list_to_set, elem_of_remove_dups.
  rewrite dom_empty_L, elem_of_empty. tauto.
Qed.

Lemma remove_dups_length_le l : length (remove_dups l) ≤ length l.
Proof.
  induction l as [|x l IH]; simpl; [lia|].
  destruct (decide_rel _ x l); simpl; lia.
Qed.

Lemma remove_dups_length_eq l : length (remove_dups l) = length l ↔ NoDup l.
Proof.
  induction l as [|x l IH]; simpl.
  - split; [constructor|done].
  - pose proof (remove_dups_length_le l).
    destruct (decide_rel _ x l) as [Hin|Hin]; simpl.
    + split; [lia|]. intros Hnd. by apply NoDup_cons in Hnd as [? ?].
    + rewrite NoDup_cons. split.
      * intros Hlen. split; [done|]. apply IH. lia.
      * intros [_ Hnd]. f_equal. by apply IH.
Qed.

Lemma remove_dups_nonempty x l : 0 < length (remove_dups (x :: l)).
Proof.
  assert (Hx : x ∈ remove_dups (x :: l)) by (apply elem_of_remove_dups; left).
  destruct (remove_dups (x :: l)); [by apply elem_of_nil in Hx|simpl; lia].
Qed.

End CounterFacts.

(** ** Part-of-speech rows *)

Section PosFacts.
Variable parse_POS : str → option string.
Variable POS : list string.

Lemma occurrences_omap pos tokens_ :
  occurrences pos (omap parse_POS tokens_) = length (with_label parse_POS pos tokens_).
Proof.
  unfold occurrences, with_label.
  induction tokens_ as [|t ts IH]; [done|].
  rewrite filter_cons. simpl. destruct (parse_POS t) as [p|] eqn:Hp.
  - rewrite filter_cons. simpl in IH.
    repeat case_decide; simplify_eq; simpl;
      first [exact IH | f_equal; exact IH].
  - by case_decide.
Qed.

Lemma length_omap tokens_ :
  length (omap parse_POS tokens_) = length (resolvable parse_POS tokens_).
Proof.
  unfold resolvable. induction tokens_ as [|t ts IH]; [done|].
  rewrite filter_cons. simpl. destruct (parse_POS t) as [p|] eqn:Hp.
  - rewrite decide_True by eauto. simpl. f_equal. exact IH.
  - rewrite decide_False by (by intros [? ?]). done.
Qed.

Lemma indicator_sum (x : string) (labels : list string) :
  NoDup labels → x ∈ labels →
  sum_list ((λ pos, if decide (x = pos) then 1 else 0) <$> labels) = 1.
Proof.
  induction 1 as [|y labels Hy Hnd IH]; intros Hx.
  - by apply elem_of_nil in Hx.
  - csimpl. destruct (decide (x = y)) as [->|Hne].
    + assert (sum_list ((λ pos, if decide (y = pos) then 1 else 0) <$> labels) = 0)
        as ->; [|done].
      clear IH Hnd Hx. induction labels as [|z labels IH]; [done|].
      csimpl. apply not_elem_of_cons in Hy as [Hyz Hy].
      rewrite decide_False by done. by rewrite IH.
    + apply elem_of_cons in Hx as [?|Hx]; [done|]. by rewrite IH.
Qed.

Lemma sum_list_fmap_add (f g : string → nat) (labels : list string) :
  sum_list ((λ pos, f pos + g pos) <$> labels)
  = sum_list (f <$> labels) + sum_list (g <$> labels).
Proof. induction labels as [|p ps IH]; csimpl; [done|]. rewrite IH. lia. Qed.

Lemma occurrences_cons (pos x : string) (l : list string) :
  occurrences pos (x :: l)
  = occurrences pos l + (if decide (x = pos) then 1 else 0).
Proof.
  unfold occurrences. rewrite filter_cons.
  destruct (decide (x = pos)); simpl; lia.
Qed.

Lemma occurrences_sum (l : list string) :
  NoDup POS → (∀ x, x ∈ l → x ∈ POS) →
  sum_list ((λ pos, occurrences pos l) <$> POS) = length l.
Proof.
  intros Hnd. induction l as [|x l IH]; intros Hin.
  - rewrite (sum_list_fmap_same 0); [simpl; lia|]. by apply Forall_forall.
  - transitivity
      (sum_list ((λ pos, occurrences pos l
                         + (if decide (x = pos) then 1 else 0)) <$> POS)).
    { f_equal. apply list_fmap_ext. intros _ pos _. apply occurrences_cons. }
    rewrite sum_list_fmap_add, IH by (intros; apply Hin; by right).
    rewrite indicator_sum by (done || apply Hin; left). simpl. lia.
Qed.

(** With a resolvable token the loop over [POS] never divides by zero. *)
Lemma pos_distribution_row_ok tokens_ n :
  length (resolvable parse_POS tokens_) = S n →
  pos_distribution_row parse_POS POS tokens_
  = Ok ((λ pos, Qred (Z.of_nat (length (with_label parse_POS pos tokens_))
                      # Pos.of_succ_nat n)) <$> POS).
Proof.
  intros Hn. unfold pos_distribution_row. apply for_each_ok. intros pos _.
  rewrite Counter_values_sum, Counter_get, length_omap, Hn, occurrences_omap.
  apply truediv_succ.
Qed.

(** Without one, the first division raises. *)
Lemma pos_distribution_row_raises tokens_ :
  resolvable parse_POS tokens_ = [] → POS ≠ [] →
  pos_distribution_row parse_POS POS tokens_ = Raise ZeroDivisionError.
Proof.
  intros Hn HP. unfold pos_distribution_row.
  rewrite Counter_values_sum, length_omap, Hn.
  destruct POS; [done|]. reflexivity.
Qed.

End PosFacts.

Lemma with_label_sum (parse_POS : str → option string) (POS : list string)
    (tokens_ : list str) :
  NoDup POS →
  (∀ t pos, t ∈ tokens_ → parse_POS t = Some pos → pos ∈ POS) →
  sum_list ((λ pos, length (with_label parse_POS pos tokens_)) <$> POS)
  = length (resolvable parse_POS tokens_).
Proof.
  intros Hnd Hin. rewrite <- length_omap.
  rewrite <- (occurrences_sum POS (omap parse_POS tokens_) Hnd).
  - f_equal. apply list_fmap_ext. intros _ pos _.
    symmetry. apply occurrences_omap.
  - intros pos Hpos. apply list_elem_of_omap in Hpos as (t & Ht & Hp). eauto.
Qed.




(** ** Exceptions of the loops *)

Lemma truediv_raise_inv a b e :
  truediv a b = Raise e → e = ZeroDivisionError ∧ b = 0.
Proof. destruct b; simpl; intros Hr; by simplify_eq. Qed.

Lemma for_each_raise_inv {A B} (f : A → result B) (l : list A) e :
  for_each f l = Raise e → ∃ x, x ∈ l ∧ f x = Raise e.
Proof.
  induction l as [|x l IH]; simpl; [done|].
  destruct (f x) as [y|e'] eqn:Hx; simpl.
  - destruct (for_each f l) as [ys|e'']; simpl; [done|].
    intros Hr. simplify_eq. destruct IH as (z & Hz & Hfz); [done|].
    exists z. split; [by right|done].
  - intros Hr. simplify_eq. exists x. split; [left|done].
Qed.

Lemma for_each_app_raise {A B} (f : A → result B) (before after : list A) x e :
  (∀ y e', f y = Raise e' → e' = e) →
  f x = Raise e →
  for_each f (before ++ x :: after) = Raise e.
Proof.
  intros Hexn Hx. induction before as [|y before IH]; simpl.
  - by rewrite Hx.
  - destruct (f y) as [z|e'] eqn:Hy; simpl.
    + by rewrite IH.
    + by rewrite (Hexn _ _ Hy).
Qed.

Lemma pos_distribution_row_exn parse_POS POS tokens_ e :
  pos_distribution_row parse_POS POS tokens_ = Raise e → e = ZeroDivisionError.
Proof.
  intros Hr. apply for_each_raise_inv in Hr as (pos & _ & Hr).
  by apply truediv_raise_inv in Hr as [-> _].
Qed.

(** C1. A text without any token of resolvable part of speech makes the
    first division of its row raise [ZeroDivisionError], and the exception
    leaves [pos_distribution]: no row of sentinels is produced, whatever
    the other texts of the batch are. *)
Theorem pos_distribution_unresolvable_raises
    (parse_POS : str → option string) (pos : string) (POS' : list string)
    (before after : list (list str)) (tokens_ : list str) :
  resolvable parse_POS tokens_ = [] →
  pos_distribution parse_POS (pos :: POS') (before ++ tokens_ :: after)
  = Raise ZeroDivisionError.
Proof.
  intros Hres. unfold pos_distribution. apply for_each_app_raise.
  - intros y e. apply pos_distribution_row_exn.
  - by apply pos_distribution_row_raises.
Qed.

Lemma pos_distribution_unresolvable_raises_witness :
  pos_distribution toy_parse_POS toy_POS [[py "кот"]; [py "!"; py ","]]
  = Raise ZeroDivisionError.
Proof.
  apply (pos_distribution_unresolvable_raises
           toy_parse_POS "NOUN" ["VERB"%string] [[py "кот"]] []
           [py "!"; py ","]).
  vm_compute. reflexivity.
Defined.

(** ** Lexical statistics *)

Lemma avg_length_rows (items : list (list str)) :
  avg_length items = Ok (reshape_column (mean_length <$> items)).
Proof.
  unfold avg_length. rewrite (for_each_ok _ mean_length); [done|].
  intros [|x rest] _; reflexivity.
Qed.

(** C9. [avg_length] never raises and returns one one-element row per
    input sequence, in order: [numpy.nan] for an empty sequence, otherwise
    the sum of the lengths of the elements divided by their number.  In
    particular [avg_length([[]])] is [[nan]] and
    [avg_length([["a","bb"]])] is [[1.5]]. *)
Theorem avg_length_spec (items : list (list str)) :
  (∃ rows,
     avg_length items = Ok rows
     ∧ length rows = length items
     ∧ ∀ i (items_ : list str), items !! i = Some items_ →
         ∃ v, rows !! i = Some [v]
           ∧ match items_ with
             | [] => v = PyNaN
             | _ :: _ =>
                 ∃ q, v = PyFloat q
                   ∧ (q == quotient (sum_list (length <$> items_))
                                    (length items_))%Q
             end)
  ∧ avg_length [[]] = Ok [[PyNaN]]
  ∧ avg_length [[py "a"; py "bb"]] = Ok [[PyFloat (3 # 2)]].
Proof.
  split; [|split; reflexivity].
  exists (reshape_column (mean_length <$> items)).
  split; [apply avg_length_rows|]. split.
  - unfold reshape_column. by rewrite !length_fmap.
  - intros i items_ Hi. exists (mean_length items_). split.
    + unfold reshape_column. rewrite list_lookup_fmap, list_lookup_fmap.
      by rewrite Hi.
    + destruct items_ as [|x rest]; [done|]. eexists. split; [reflexivity|].
      rewrite Qred_correct. apply fraction_quotient.
Qed.

Lemma avg_length_spec_witness :
  avg_length [[]; [py "кот"; py "спит"]]
  = Ok [[PyNaN]; [PyFloat (7 # 2)]].
Proof.
  destruct (avg_length_spec [[]; [py "кот"; py "спит"]])
    as [(rows & Hrows & _) _].
  rewrite Hrows. f_equal.
  rewrite avg_length_rows in Hrows. injection Hrows as <-. reflexivity.
Defined.

Lemma foreign_words_ratio_cons (U : ucd) (t : str) (ts : list str) :
  foreign_words_ratio U (t :: ts)
  = Ok (Some (Qred (Z.of_nat (length (foreign_tokens U (t :: ts)))
                    # Pos.of_succ_nat (length ts)))).
Proof. reflexivity. Qed.

(** C8. [foreign_words_ratio] never raises; it returns [None] exactly for
    the empty list, and otherwise the number of tokens matching
    [FOREIGN_WORD] divided by the number of tokens, a value between 0 and
    1.  For ["hello", "мир"] the result is 0.5. *)
Theorem foreign_words_ratio_spec (U : ucd) (tokens : list str) :
  (foreign_words_ratio U tokens = Ok None ↔ tokens = [])
  ∧ (tokens ≠ [] →
     ∃ q, foreign_words_ratio U tokens = Ok (Some q)
       ∧ (q == quotient (length (foreign_tokens U tokens)) (length tokens))%Q
       ∧ (0 <= q)%Q ∧ (q <= 1)%Q)
  ∧ foreign_words_ratio latin_cyrillic [py "hello"; py "мир"]
    = Ok (Some (1 # 2)).
Proof.
  split; [|split; [|reflexivity]].
  - destruct tokens as [|t ts]; [done|]. split; [|done].
    rewrite foreign_words_ratio_cons. discriminate.
  - intros Hne. destruct tokens as [|t ts]; [done|].
    rewrite foreign_words_ratio_cons. eexists. split; [reflexivity|].
    rewrite Qred_correct. split; [apply fraction_quotient|]. split.
    + apply fraction_nonneg.
    + apply fraction_le_1. apply (length_filter _ (t :: ts)).
Qed.

Lemma foreign_words_ratio_spec_witness :
  [py "HeLLo"; py "x1"; py "мир"; py ","] ≠ []
  ∧ ∃ q, foreign_words_ratio latin_cyrillic
           [py "HeLLo"; py "x1"; py "мир"; py ","] = Ok (Some q)
      ∧ (0 <= q)%Q ∧ (q <= 1)%Q.
Proof.
  split; [discriminate|].
  destruct (foreign_words_ratio_spec latin_cyrillic
              [py "HeLLo"; py "x1"; py "мир"; py ","])
    as (_ & Hq & _).
  destruct Hq as (q & Hq & _ & H0 & H1); [discriminate|].
  exists q. split; [exact Hq|]. split; [exact H0|exact H1].
Defined.

Lemma vocabulary_richness_cons (parse_normal_form : str → str) (t : str)
    (ts : list str) :
  vocabulary_richness parse_normal_form (t :: ts)
  = Ok (Some (Qred (Z.of_nat (size (Counter (parse_normal_form <$> t :: ts)))
                    # Pos.of_succ_nat (length ts)))).
Proof. reflexivity. Qed.

(** C7. [vocabulary_richness] returns [None] for the empty list.  For a
    non-empty list it never raises and returns the number of distinct
    normal forms divided by the number of tokens; this value is positive,
    at most 1, and equal to 1 exactly when the normal forms of the tokens
    are pairwise distinct. *)
Theorem vocabulary_richness_spec
    (parse_normal_form : str → str) (tokens : list str) :
  (tokens = [] → vocabulary_richness parse_normal_form tokens = Ok None)
  ∧ (tokens ≠ [] →
     ∃ q, vocabulary_richness parse_normal_form tokens = Ok (Some q)
       ∧ (q == quotient (length (remove_dups (parse_normal_form <$> tokens)))
                        (length tokens))%Q
       ∧ (0 < q)%Q ∧ (q <= 1)%Q
       ∧ ((q == 1)%Q ↔ NoDup (parse_normal_form <$> tokens))).
Proof.
  split; [by intros ->|]. intros Hne.
  destruct tokens as [|t ts]; [done|].
  rewrite vocabulary_richness_cons, Counter_size.
  eexists. split; [reflexivity|]. rewrite Qred_correct.
  pose proof (remove_dups_length_le (parse_normal_form <$> t :: ts)) as Hle.
  rewrite length_fmap in Hle. simpl length in Hle.
  split; [apply fraction_quotient|]. split; [|split].
  - apply fraction_pos. apply (remove_dups_nonempty (parse_normal_form t)).
  - by apply fraction_le_1.
  - rewrite fraction_eq_1, <- remove_dups_length_eq, length_fmap. done.
Qed.

Lemma vocabulary_richness_spec_witness :
  [py "кот"; py "коты"; py "спит"] ≠ []
  ∧ ∃ q, vocabulary_richness toy_normal_form [py "кот"; py "коты"; py "спит"]
         = Ok (Some q)
      ∧ (0 < q)%Q ∧ (q <= 1)%Q.
Proof.
  split; [discriminate|].
  destruct (vocabulary_richness_spec toy_normal_form
              [py "кот"; py "коты"; py "спит"]) as [_ Hq].
  destruct Hq as (q & Hq & _ & H0 & H1 & _); [discriminate|].
  exists q. split; [exact Hq|]. split; [exact H0|exact H1].
Defined.

(** ** Punctuation distribution *)

Lemma ratio_or_zero_value (U : ucd) (P : pattern) (text : str) (n : nat) :
  ratio_or_zero U P text n
  = Ok (ratio_value (length (pattern_findall U P text)) n).
Proof. by destruct n. Qed.

Section PunctuationFacts.
Variable U : ucd.
Variables PUNCTUATIONS HIGHLIGHT_PUNCTS SMILES_PUNCTS : pattern.

Abbreviation distribution :=
  (punctuations_distribution U PUNCTUATIONS HIGHLIGHT_PUNCTS SMILES_PUNCTS).

(** The dictionary built for a non-empty text. *)
Lemma punctuations_distribution_cons (c : char) (text : str) :
  let n := length (pattern_findall U PUNCTUATIONS (c :: text)) in
  let share P := ratio_value (length (pattern_findall U P (c :: text))) n in
  distribution (Some (c :: text))
  = Ok (<["digits_puncts"%string := share DIGITS_PUNCTS]>
        (<["smiles_puncts"%string := share SMILES_PUNCTS]>
         (<["highlight_puncts"%string := share HIGHLIGHT_PUNCTS]>
          (<["dividing_puncts"%string := share DIVIDING_PUNCTS]>
           (<["definitive_puncts"%string := share DEFINITIVE_PUNCTS]> ∅))))).
Proof.
  intros n share. unfold punctuations_distribution.
  fold n. rewrite !ratio_or_zero_value. reflexivity.
Qed.

(** A non-empty text without recognized punctuation: every one of the
    five categories is the integer 0. *)
Lemma punctuations_distribution_no_punctuation (c : char) (text : str) :
  pattern_findall U PUNCTUATIONS (c :: text) = [] →
  distribution (Some (c :: text))
  = Ok (fromkeys (columns ++ ["digits_puncts"%string]) (PyInt 0)).
Proof.
  intros Hn. rewrite punctuations_distribution_cons, Hn. reflexivity.
Qed.

(** Reading the five entries back. *)
Lemma punctuations_distribution_lookup (text : str) :
  let n := length (pattern_findall U PUNCTUATIONS text) in
  let share P := ratio_value (length (pattern_findall U P text)) n in
  text ≠ [] →
  ∃ d, distribution (Some text) = Ok d
    ∧ d !! "definitive_puncts"%string = Some (share DEFINITIVE_PUNCTS)
    ∧ d !! "dividing_puncts"%string = Some (share DIVIDING_PUNCTS)
    ∧ d !! "highlight_puncts"%string = Some (share HIGHLIGHT_PUNCTS)
    ∧ d !! "smiles_puncts"%string = Some (share SMILES_PUNCTS)
    ∧ d !! "digits_puncts"%string = Some (share DIGITS_PUNCTS).
Proof.
  intros n share Hne. destruct text as [|c text]; [done|].
  eexists. split; [apply punctuations_distribution_cons|].
  repeat split;
    repeat (rewrite lookup_insert_ne by discriminate);
    apply lookup_insert_eq.
Qed.

End PunctuationFacts.

Lemma fraction_red_inv (a b : nat) (c : Z) (d : positive) :
  Qred (Z.of_nat a # Pos.of_succ_nat b) = (c # d)%Q →
  (Z.of_nat a * Z.pos d = c * Z.of_nat (S b))%Z.
Proof.
  intros Hq.
  assert (Heq : (Z.of_nat a # Pos.of_succ_nat b == c # d)%Q)
    by (rewrite <- Hq; symmetry; apply Qred_correct).
  unfold Qeq in Heq. simpl in Heq. rewrite Zpos_P_of_succ_nat in Heq. lia.
Qed.

(** C2. On "Привет, мир!!!" [DEFINITIVE_PUNCTS] does not find the run
    [!!!] once: its first alternative, three unescaped dots, matches any
    three characters, so the scan yields six matches ("При", "вет", ", м",
    "ир!", "!", "!").  With [n] marks found by the master pattern the
    entries are 6/n and 1/n; they are never both 0.5, and with the two
    marks the scenario counts the definitive entry is 3. *)
Theorem definitive_puncts_greeting
    (U : ucd) (PUNCTUATIONS HIGHLIGHT_PUNCTS SMILES_PUNCTS : pattern) :
  pattern_findall U DEFINITIVE_PUNCTS greeting
  = [py "При"; py "вет"; py ", м"; py "ир!"; py "!"; py "!"]
  ∧ pattern_findall U DIVIDING_PUNCTS greeting = [py ","]
  ∧ ∃ d,
      punctuations_distribution U PUNCTUATIONS HIGHLIGHT_PUNCTS SMILES_PUNCTS
        (Some greeting) = Ok d
      ∧ d !! "definitive_puncts"%string
        = Some (ratio_value 6 (length (pattern_findall U PUNCTUATIONS greeting)))
      ∧ d !! "dividing_puncts"%string
        = Some (ratio_value 1 (length (pattern_findall U PUNCTUATIONS greeting)))
      ∧ ¬ (d !! "definitive_puncts"%string = Some (PyFloat (1 # 2))
           ∧ d !! "dividing_puncts"%string = Some (PyFloat (1 # 2)))
      ∧ (length (pattern_findall U PUNCTUATIONS greeting) = 2 →
         d !! "definitive_puncts"%string = Some (PyFloat 3)
         ∧ d !! "dividing_puncts"%string = Some (PyFloat (1 # 2))).
Proof.
  assert (Hdef : pattern_findall U DEFINITIVE_PUNCTS greeting
                 = [py "При"; py "вет"; py ", м"; py "ир!"; py "!"; py "!"])
    by (vm_compute; reflexivity).
  assert (Hdiv : pattern_findall U DIVIDING_PUNCTS greeting = [py ","])
    by (vm_compute; reflexivity).
  split; [exact Hdef|]. split; [exact Hdiv|].
  destruct (punctuations_distribution_lookup U PUNCTUATIONS HIGHLIGHT_PUNCTS
              SMILES_PUNCTS greeting)
    as (d & Hd & H1 & H2 & _); [discriminate|].
  rewrite Hdef in H1. rewrite Hdiv in H2.
  exists d. split; [exact Hd|]. split; [exact H1|]. split; [exact H2|].
  split.
  - rewrite H1, H2. intros [Ha Hb].
    destruct (length (pattern_findall U PUNCTUATIONS greeting)) as [|n];
      [discriminate|].
    cbv beta iota delta [ratio_value] in Ha, Hb.
    assert (Ha' : ∀ q q', Some (PyFloat q) = Some (PyFloat q') → q = q')
      by congruence.
    apply Ha', fraction_red_inv in Ha. apply Ha', fraction_red_inv in Hb.
    simpl length in Ha, Hb. lia.
  - intros Hn. rewrite H1, H2, Hn. split; reflexivity.
Qed.

Lemma definitive_puncts_greeting_witness :
  length (pattern_findall latin_cyrillic comma_bang_runs greeting) = 2
  ∧ ∃ d,
      punctuations_distribution latin_cyrillic comma_bang_runs
        DIVIDING_PUNCTS DIGITS_PUNCTS (Some greeting) = Ok d
      ∧ d !! "definitive_puncts"%string = Some (PyFloat 3).
Proof.
  split; [vm_compute; reflexivity|].
  destruct (definitive_puncts_greeting latin_cyrillic comma_bang_runs
              DIVIDING_PUNCTS DIGITS_PUNCTS)
    as (_ & _ & d & Hd & _ & _ & _ & Hn).
  exists d. split; [exact Hd|]. apply Hn. vm_compute. reflexivity.
Defined.

(** C3. The guarded path for an empty or null text builds its dictionary
    from [columns], which lacks ["digits_puncts"]: the result has four
    entries, whereas every non-empty text, with or without punctuation,
    gets all five. *)
Theorem punctuations_distribution_empty_text
    (U : ucd) (PUNCTUATIONS HIGHLIGHT_PUNCTS SMILES_PUNCTS : pattern) :
  punctuations_distribution U PUNCTUATIONS HIGHLIGHT_PUNCTS SMILES_PUNCTS None
  = Ok (fromkeys columns (PyInt 0))
  ∧ punctuations_distribution U PUNCTUATIONS HIGHLIGHT_PUNCTS SMILES_PUNCTS
      (Some [])
    = Ok (fromkeys columns (PyInt 0))
  ∧ fromkeys columns (PyInt 0) !! "digits_puncts"%string = None
  ∧ size (fromkeys columns (PyInt 0)) = 4
  ∧ ∀ c text, ∃ d,
      punctuations_distribution U PUNCTUATIONS HIGHLIGHT_PUNCTS SMILES_PUNCTS
        (Some (c :: text)) = Ok d
      ∧ is_Some (d !! "digits_puncts"%string).
Proof.
  split; [reflexivity|]. split; [reflexivity|]. split; [reflexivity|].
  split; [reflexivity|]. intros c text.
  destruct (punctuations_distribution_lookup U PUNCTUATIONS HIGHLIGHT_PUNCTS
              SMILES_PUNCTS (c :: text)) as (d & Hd & _ & _ & _ & _ & H5);
    [discriminate|].
  exists d. split; [exact Hd|]. rewrite H5. eauto.
Qed.

(** C4. On "Да, он" [DEFINITIVE_PUNCTS] finds two matches ("Да," and
    " он"); when the master pattern recognizes one mark there, the comma,
    the definitive entry is the float 2, above 1. *)
Theorem definitive_ratio_above_one
    (U : ucd) (PUNCTUATIONS HIGHLIGHT_PUNCTS SMILES_PUNCTS : pattern) :
  length (pattern_findall U PUNCTUATIONS remark) = 1 →
  ∃ d q,
    punctuations_distribution U PUNCTUATIONS HIGHLIGHT_PUNCTS SMILES_PUNCTS
      (Some remark) = Ok d
    ∧ d !! "definitive_puncts"%string = Some (PyFloat q)
    ∧ (q == 2)%Q ∧ (1 < q)%Q.
Proof.
  intros Hn.
  assert (Hdef : pattern_findall U DEFINITIVE_PUNCTS remark
                 = [py "Да,"; py " он"]) by (vm_compute; reflexivity).
  destruct (punctuations_distribution_lookup U PUNCTUATIONS HIGHLIGHT_PUNCTS
              SMILES_PUNCTS remark) as (d & Hd & H1 & _); [discriminate|].
  rewrite Hdef, Hn in H1.
  exists d, 2%Q. split; [exact Hd|]. split; [exact H1|]. split; reflexivity.
Qed.

Lemma definitive_ratio_above_one_witness :
  length (pattern_findall latin_cyrillic DIVIDING_PUNCTS remark) = 1
  ∧ ∃ d q,
      punctuations_distribution latin_cyrillic DIVIDING_PUNCTS
        DIVIDING_PUNCTS DIGITS_PUNCTS (Some remark) = Ok d
      ∧ d !! "definitive_puncts"%string = Some (PyFloat q)
      ∧ (q == 2)%Q ∧ (1 < q)%Q.
Proof.
  split; [vm_compute; reflexivity|].
  apply (definitive_ratio_above_one latin_cyrillic DIVIDING_PUNCTS
           DIVIDING_PUNCTS DIGITS_PUNCTS).
  vm_compute. reflexivity.
Defined.

(** C5. The comma of "Да, он" (index 2) lies inside a match of
    [DEFINITIVE_PUNCTS] and is a match of [DIVIDING_PUNCTS]: the two
    category patterns overlap on it. *)
Theorem definitive_dividing_overlap (U : ucd) :
  remark !! 2 = Some (ch ",")
  ∧ finditer U false (pat DEFINITIVE_PUNCTS) remark
    = [(0, py "Да,"); (3, py " он")]
  ∧ finditer U false (pat DIVIDING_PUNCTS) remark = [(2, py ",")]
  ∧ pattern_covers U DEFINITIVE_PUNCTS remark 2 = true
  ∧ pattern_covers U DIVIDING_PUNCTS remark 2 = true.
Proof. repeat split; vm_compute; reflexivity. Qed.

(** ** Serialization *)

(** C10. For an argument that is not a [Model] instance [serialize_model]
    raises [ValueError] and leaves the file system as it was: the check
    comes before the file is opened. *)
Theorem serialize_model_rejects
    (Model : Type) (pickle_dumps : Model → list N) (can_open : string → bool)
    (model : pyobj Model) (filename : string) (fs : gmap string (list N)) :
  isinstance_Model Model model = false →
  serialize_model Model pickle_dumps can_open model filename fs
  = (Raise ValueError, fs).
Proof. intros Hm. by destruct model. Qed.

Lemma serialize_model_rejects_witness :
  serialize_model unit (λ _, []) (λ _, true) (ObjStr (py "model"))
    "model.pickle" {["model.pickle"%string := [1%N]]}
  = (Raise ValueError, {["model.pickle"%string := [1%N]]}).
Proof.
  apply (serialize_model_rejects unit (λ _, []) (λ _, true)
           (ObjStr (py "model"))).
  reflexivity.
Defined.

(** ** Serialization round trips *)

Section SerializeFacts.
Variable Model : Type.
Variable pickle_dumps : Model → list N.
Variable pickle_loads : list N → result (pyobj Model).
Variables can_open can_read : string → bool.

Abbreviation save := (serialize_model Model pickle_dumps can_open).
Abbreviation load := (deserialize_model Model pickle_loads can_read).

Lemma serialize_model_ok (m : Model) filename fs :
  can_open filename = true →
  save (ObjModel m) filename fs = (Ok tt, <[filename := pickle_dumps m]> fs).
Proof.
  intros Ho. unfold serialize_model, open_wb. rewrite Ho.
  by rewrite insert_insert_eq.
Qed.

Lemma serialize_model_other_files (model : pyobj Model) filename other fs :
  other ≠ filename → (save model filename fs).2 !! other = fs !! other.
Proof.
  intros Hne. unfold serialize_model, open_wb.
  destruct model; try done. destruct (can_open filename); simpl; [|done].
  by rewrite !lookup_insert_ne.
Qed.

End SerializeFacts.

(** X1. A model written by [serialize_model] is read back by
    [deserialize_model]: when the file can be opened for writing and for
    reading and [pickle.load] inverts [pickle.dump] on the model, saving
    succeeds and loading the same file name returns the model. *)
Theorem serialize_deserialize_roundtrip
    (Model : Type) (pickle_dumps : Model → list N)
    (pickle_loads : list N → result (pyobj Model))
    (can_open can_read : string → bool)
    (m : Model) (filename : string) (fs : gmap string (list N)) :
  can_open filename = true →
  can_read filename = true →
  pickle_loads (pickle_dumps m) = Ok (ObjModel m) →
  (serialize_model Model pickle_dumps can_open (ObjModel m) filename fs).1
  = Ok tt
  ∧ deserialize_model Model pickle_loads can_read filename
      (serialize_model Model pickle_dumps can_open (ObjModel m) filename fs).2
    = Ok (ObjModel m).
Proof.
  intros Ho Hr Hp. rewrite serialize_model_ok by done. split; [done|].
  unfold deserialize_model, open_rb. simpl.
  by rewrite lookup_insert_eq, Hr.
Qed.

Lemma serialize_deserialize_roundtrip_witness :
  deserialize_model nat toy_loads (λ _, true) "m.pickle"
    (serialize_model nat toy_dumps (λ _, true) (ObjModel 7) "m.pickle" ∅).2
  = Ok (ObjModel 7).
Proof.
  apply (serialize_deserialize_roundtrip nat toy_dumps toy_loads
           (λ _, true) (λ _, true) 7 "m.pickle" ∅); reflexivity.
Defined.

(** X2. [serialize_model] touches no file but the one its file name
    denotes: for any argument, accepted or rejected, a name that resolves
    to another file reads what it read before, so loading it gives the
    same result before and after.  (Two names of one file, such as
    [b.pickle] and [./b.pickle], are not covered: they resolve to the same
    file.) *)
Theorem serialize_model_frame
    (Model : Type) (pickle_dumps : Model → list N)
    (pickle_loads : list N → result (pyobj Model))
    (can_open can_read : string → bool) (resolve : string → string)
    (model : pyobj Model) (filename other : string)
    (fs : gmap string (list N)) :
  resolve other ≠ resolve filename →
  (serialize_model_path Model pickle_dumps can_open resolve model filename
     fs).2 !! resolve other
  = fs !! resolve other
  ∧ deserialize_model_path Model pickle_loads can_read resolve other
      (serialize_model_path Model pickle_dumps can_open resolve model
         filename fs).2
    = deserialize_model_path Model pickle_loads can_read resolve other fs.
Proof.
  intros Hne. unfold serialize_model_path, deserialize_model_path.
  pose proof (serialize_model_other_files Model pickle_dumps can_open
                model (resolve filename) (resolve other) fs Hne) as Hl.
  split; [exact Hl|]. unfold deserialize_model, open_rb. by rewrite Hl.
Qed.

Lemma serialize_model_frame_witness :
  toy_resolve "./b.pickle" ≠ toy_resolve "a.pickle"
  ∧ deserialize_model_path nat toy_loads (λ _, true) toy_resolve "./b.pickle"
      (serialize_model_path nat toy_dumps (λ _, true) toy_resolve
         (ObjModel 7) "a.pickle" {["b.pickle"%string := [3%N]]}).2
    = Ok (ObjModel 3).
Proof.
  split; [discriminate|].
  destruct (serialize_model_frame nat toy_dumps toy_loads (λ _, true)
              (λ _, true) toy_resolve (ObjModel 7) "a.pickle" "./b.pickle"
              {["b.pickle"%string := [3%N]]}) as [_ Hd]; [discriminate|].
  rewrite Hd. reflexivity.
Defined.

(** X3. The last write wins: after two models are saved under one file
    name, the file system is the one the second save alone produces, and
    loading returns the second model. *)
Theorem serialize_model_overwrites
    (Model : Type) (pickle_dumps : Model → list N)
    (pickle_loads : list N → result (pyobj Model))
    (can_open can_read : string → bool)
    (m1 m2 : Model) (filename : string) (fs : gmap string (list N)) :
  can_open filename = true →
  can_read filename = true →
  pickle_loads (pickle_dumps m2) = Ok (ObjModel m2) →
  (serialize_model Model pickle_dumps can_open (ObjModel m2) filename
     (serialize_model Model pickle_dumps can_open (ObjModel m1) filename fs).2).2
  = (serialize_model Model pickle_dumps can_open (ObjModel m2) filename fs).2
  ∧ deserialize_model Model pickle_loads can_read filename
      (serialize_model Model pickle_dumps can_open (ObjModel m2) filename
         (serialize_model Model pickle_dumps can_open (ObjModel m1) filename
            fs).2).2
    = Ok (ObjModel m2).
Proof.
  intros Ho Hr Hp. rewrite !serialize_model_ok by done. simpl.
  rewrite insert_insert_eq. split; [done|].
  unfold deserialize_model, open_rb. by rewrite lookup_insert_eq, Hr.
Qed.

Lemma serialize_model_overwrites_witness :
  deserialize_model nat toy_loads (λ _, true) "m.pickle"
    (serialize_model nat toy_dumps (λ _, true) (ObjModel 9) "m.pickle"
       (serialize_model nat toy_dumps (λ _, true) (ObjModel 7) "m.pickle"
          ∅).2).2
  = Ok (ObjModel 9).
Proof.
  apply (serialize_model_overwrites nat toy_dumps toy_loads
           (λ _, true) (λ _, true) 7 9 "m.pickle" ∅); reflexivity.
Defined.



(** ** The command dispatch of [main] *)

(** X5. [main] ends with [UnboundLocalError] exactly when the command is
    [train] or [predict] and the configured input is neither a
    [FeaturesExtractor] nor a [DataFrame]; it has then called none of its
    collaborators. *)
Theorem main_unbound_extractor
    (DataFrame Extractor : Type) (fit_extractor : DataFrame → Extractor)
    (command : string) (input : input_obj DataFrame Extractor)
    (output_file : string) :
  ((main DataFrame Extractor fit_extractor command input output_file).2
   = UnboundLocalError
   ↔ (command = "train"%string ∨ command = "predict"%string)
     ∧ input = InputOther)
  ∧ ((main DataFrame Extractor fit_extractor command input output_file).2
     = UnboundLocalError →
     (main DataFrame Extractor fit_extractor command input output_file).1 = []).
Proof.
  unfold main, bind_extractor.
  destruct (decide (command = "info"%string)) as [->|Hi];
    [simpl; split; [split; [done|intros [[?|?] _]; done]|done]|].
  rewrite (bool_decide_eq_false_2 _ Hi).
  destruct (decide (command = "train"%string)) as [->|Ht].
  { simpl. destruct input; simpl; (split; [split|]); try done; auto.
    all: intros [_ ?]; done. }
  rewrite (bool_decide_eq_false_2 _ Ht).
  destruct (decide (command = "predict"%string)) as [->|Hp].
  { simpl. destruct input; simpl; (split; [split|]); try done; auto.
    all: intros [_ ?]; done. }
  rewrite (bool_decide_eq_false_2 _ Hp). simpl.
  split; [split; [done|intros [[?|?] _]; done]|done].
Qed.

Lemma main_unbound_extractor_witness :
  main unit unit (λ _, tt) "train" InputOther "out.pickle"
  = ([], UnboundLocalError).
Proof.
  pose proof (main_unbound_extractor unit unit (λ _, tt) "train" InputOther
                "out.pickle") as [[_ Hu] Ht].
  assert (Hend : (main unit unit (λ _, tt) "train" InputOther "out.pickle").2
                 = UnboundLocalError) by (apply Hu; split; [by left|done]).
  specialize (Ht Hend). destruct (main _ _ _ _ _ _) as [tr e].
  simpl in *. by subst.
Defined.

(** X6. [main] writes to the cache only an extractor it has just fitted:
    [to_cache] is called exactly when the command is [train] or [predict]
    and the input is a [DataFrame], with the extractor fitted on it; an
    extractor passed in is not cached again.  [model.save] is called
    exactly for [train] with a usable input, on the configured output
    file. *)
Theorem main_cache_and_save
    (DataFrame Extractor : Type) (fit_extractor : DataFrame → Extractor)
    (command : string) (input : input_obj DataFrame Extractor)
    (output_file : string) (e : Extractor) (f : string) :
  (ToCache e ∈ (main DataFrame Extractor fit_extractor command input
                  output_file).1
   ↔ (command = "train"%string ∨ command = "predict"%string)
     ∧ ∃ df, input = InputDataFrame df ∧ e = fit_extractor df)
  ∧ (ModelSave f ∈ (main DataFrame Extractor fit_extractor command input
                      output_file).1
     ↔ command = "train"%string ∧ input ≠ InputOther ∧ f = output_file).
Proof.
  unfold main, bind_extractor.
  destruct (decide (command = "info"%string)) as [->|Hi].
  { simpl. split; split.
    - intros Hin. apply list_elem_of_singleton in Hin. done.
    - intros [[?|?] _]; done.
    - intros Hin. apply list_elem_of_singleton in Hin. done.
    - intros [? _]; done. }
  rewrite (bool_decide_eq_false_2 _ Hi).
  destruct (decide (command = "train"%string)) as [->|Ht].
  { simpl. destruct input as [e'|df|]; simpl; split; split.
    all: rewrite ?elem_of_cons, ?elem_of_nil.
    all: try (intros [?|[?|[?|?]]]; simplify_eq; done).
    all: try (intros [?|[?|[?|[?|?]]]]; simplify_eq; eauto 10; done).
    all: try (intros [_ (df' & ? & ?)]; simplify_eq; eauto; done).
    all: try (intros (_ & ? & ?); simplify_eq; eauto 10; done).
    all: try done. }
  rewrite (bool_decide_eq_false_2 _ Ht).
  destruct (decide (command = "predict"%string)) as [->|Hp].
  { simpl. destruct input as [e'|df|]; simpl; split; split.
    all: rewrite ?elem_of_cons, ?elem_of_nil.
    all: try (intros [?|?]; simplify_eq; done).
    all: try (intros [?|[?|?]]; simplify_eq; eauto 10; done).
    all: try (intros [_ (df' & ? & ?)]; simplify_eq; eauto; done).
    all: try (intros (? & _); simplify_eq; done).
    all: try done. }
  rewrite (bool_decide_eq_false_2 _ Hp). simpl.
  split; split; rewrite ?elem_of_nil; try done.
  - intros [[?|?] _]; done.
  - intros [? _]; done.
Qed.

Lemma main_cache_and_save_witness :
  ToCache 5 ∈ (main nat nat S "predict" (InputDataFrame 4) "out.pickle").1
  ∧ ¬ ModelSave "out.pickle"
      ∈ (main nat nat S "predict" (InputDataFrame 4) "out.pickle").1.
Proof.
  destruct (main_cache_and_save nat nat S "predict" (InputDataFrame 4)
              "out.pickle" 5 "out.pickle") as [[_ Hc] [Hs _]].
  split.
  - apply Hc. split; [by right|]. exists 4. split; reflexivity.
  - intros Hin. apply Hs in Hin as [Hcmd _]. discriminate Hcmd.
Defined.

(** ** More on part-of-speech rows *)

Lemma for_each_ext {A B} (f g : A → result B) (l : list A) :
  (∀ x, x ∈ l → f x = g x) → for_each f l = for_each g l.
Proof.
  induction l as [|x l IH]; intros Hfg; [done|]. simpl.
  rewrite (Hfg x) by left. rewrite IH; [done|].
  intros y Hy. apply Hfg. by right.
Qed.

Lemma for_each_fmap {A B C} (f : B → result C) (g : A → B) (l : list A) :
  for_each f (g <$> l) = for_each (λ x, f (g x)) l.
Proof. induction l as [|x l IH]; [done|]. csimpl. by rewrite IH. Qed.

(** The row of a text in terms of its tokens. *)
Lemma pos_distribution_row_counts parse_POS POS tokens_ :
  pos_distribution_row parse_POS POS tokens_
  = for_each (λ pos, truediv (length (with_label parse_POS pos tokens_))
                             (length (resolvable parse_POS tokens_))) POS.
Proof.
  unfold pos_distribution_row. apply for_each_ext. intros pos _.
  by rewrite Counter_values_sum, Counter_get, length_omap, occurrences_omap.
Qed.

Lemma with_label_le parse_POS pos tokens_ :
  length (with_label parse_POS pos tokens_)
  ≤ length (resolvable parse_POS tokens_).
Proof.
  unfold with_label, resolvable. induction tokens_ as [|t ts IH]; [done|].
  rewrite !filter_cons. destruct (parse_POS t) as [p|] eqn:Hp.
  - rewrite (decide_True (P := is_Some _)) by eauto.
    case_decide; simpl; lia.
  - rewrite decide_False by done.
    rewrite (decide_False (P := is_Some _)) by (by intros [? ?]). done.
Qed.

(** X7. [pos_distribution] raises exactly when [POS] is non-empty and
    some text of the batch has no token with a resolvable part of speech;
    the exception is then [ZeroDivisionError]. *)
Theorem pos_distribution_raises_iff
    (parse_POS : str → option string) (POS : list string)
    (tokens : list (list str)) (e : exn) :
  pos_distribution parse_POS POS tokens = Raise e
  ↔ e = ZeroDivisionError
    ∧ POS ≠ []
    ∧ ∃ tokens_, tokens_ ∈ tokens ∧ resolvable parse_POS tokens_ = [].
Proof.
  split.
  - intros Hr. apply for_each_raise_inv in Hr as (tokens_ & Hin & Hr).
    rewrite pos_distribution_row_counts in Hr.
    apply for_each_raise_inv in Hr as (pos & Hpos & Hr).
    apply truediv_raise_inv in Hr as [-> Hn]. split; [done|]. split.
    + intros ->. by apply elem_of_nil in Hpos.
    + exists tokens_. split; [done|]. by apply length_zero_iff_nil.
  - intros (-> & HP & tokens_ & Hin & Hres).
    apply list_elem_of_split in Hin as (before & after & ->).
    apply for_each_app_raise.
    + intros y e'. apply pos_distribution_row_exn.
    + by apply pos_distribution_row_raises.
Qed.

Lemma pos_distribution_raises_iff_witness :
  pos_distribution toy_parse_POS toy_POS [[py "кот"]; [py "!"]]
  = Raise ZeroDivisionError.
Proof.
  apply (pos_distribution_raises_iff toy_parse_POS toy_POS
           [[py "кот"]; [py "!"]] ZeroDivisionError).
  split; [reflexivity|]. split; [discriminate|].
  exists [py "!"]. split; [right; left|reflexivity].
Defined.

Lemma omap_resolvable parse_POS tokens_ :
  omap parse_POS (resolvable parse_POS tokens_) = omap parse_POS tokens_.
Proof.
  unfold resolvable. induction tokens_ as [|t ts IH]; [done|].
  rewrite filter_cons. destruct (parse_POS t) as [p|] eqn:Hp.
  - rewrite decide_True by eauto. csimpl. rewrite Hp. simpl in *.
    f_equal. exact IH.
  - rewrite decide_False by (by intros [? ?]). csimpl. rewrite Hp. exact IH.
Qed.

(** X8. Tokens without a resolvable part of speech do not influence the
    result: removing them from every text of a batch leaves the outcome of
    [pos_distribution], rows or exception, unchanged. *)
Theorem pos_distribution_ignores_unresolvable
    (parse_POS : str → option string) (POS : list string)
    (tokens : list (list str)) :
  pos_distribution parse_POS POS (resolvable parse_POS <$> tokens)
  = pos_distribution parse_POS POS tokens.
Proof.
  unfold pos_distribution. rewrite for_each_fmap. apply for_each_ext.
  intros tokens_ _. unfold pos_distribution_row.
  by rewrite omap_resolvable.
Qed.

Lemma indicator_sum_absent (x : string) (labels : list string) :
  x ∉ labels →
  sum_list ((λ pos, if decide (x = pos) then 1 else 0) <$> labels) = 0.
Proof.
  induction labels as [|z labels IH]; [done|]. csimpl.
  intros Hx. apply not_elem_of_cons in Hx as [Hxz Hx].
  rewrite decide_False by done. by rewrite IH.
Qed.

Lemma occurrences_sum_known (POS l : list string) :
  NoDup POS →
  sum_list ((λ pos, occurrences pos l) <$> POS)
  = length (filter (λ x, x ∈ POS) l).
Proof.
  intros Hnd. induction l as [|x l IH].
  - rewrite (sum_list_fmap_same 0); [simpl; lia|]. by apply Forall_forall.
  - transitivity
      (sum_list ((λ pos, occurrences pos l
                         + (if decide (x = pos) then 1 else 0)) <$> POS)).
    { f_equal. apply list_fmap_ext. intros _ pos _. apply occurrences_cons. }
    rewrite sum_list_fmap_add, IH, filter_cons.
    destruct (decide (x ∈ POS)) as [Hx|Hx].
    + rewrite indicator_sum by done. simpl. lia.
    + rewrite indicator_sum_absent by done. lia.
Qed.

Lemma with_known_label_omap parse_POS POS tokens_ :
  length (filter (λ x, x ∈ POS) (omap parse_POS tokens_))
  = length (with_known_label parse_POS POS tokens_).
Proof.
  unfold with_known_label, known_label.
  induction tokens_ as [|t ts IH]; [done|].
  rewrite filter_cons. csimpl. destruct (parse_POS t) as [p|] eqn:Hp.
  - rewrite filter_cons. destruct (decide (p ∈ POS)) as [Hin|Hin].
    + rewrite bool_decide_eq_true_2 by done. rewrite decide_True by done.
      simpl in *. f_equal. exact IH.
    + rewrite bool_decide_eq_false_2 by done. rewrite decide_False by done.
      exact IH.
  - rewrite decide_False by done. exact IH.
Qed.

Lemma with_known_label_le parse_POS POS tokens_ :
  length (with_known_label parse_POS POS tokens_)
  ≤ length (resolvable parse_POS tokens_).
Proof.
  unfold with_known_label, resolvable, known_label.
  induction tokens_ as [|t ts IH]; [done|]. rewrite !filter_cons.
  destruct (parse_POS t) as [p|] eqn:Hp.
  - rewrite (decide_True (P := is_Some _)) by eauto.
    case_decide; simpl; lia.
  - rewrite decide_False by done.
    rewrite (decide_False (P := is_Some _)) by (by intros [? ?]). done.
Qed.

Lemma with_known_label_lt parse_POS POS tokens_ t pos :
  t ∈ tokens_ → parse_POS t = Some pos → pos ∉ POS →
  length (with_known_label parse_POS POS tokens_)
  < length (resolvable parse_POS tokens_).
Proof.
  intros Hin Hp Hpos. apply list_elem_of_split in Hin as (l1 & l2 & ->).
  pose proof (with_known_label_le parse_POS POS l1).
  pose proof (with_known_label_le parse_POS POS l2).
  unfold with_known_label, resolvable in *.
  rewrite !filter_app, !filter_cons, !length_app.
  rewrite (decide_True (P := is_Some _)) by (rewrite Hp; eauto).
  rewrite decide_False; [simpl; lia|].
  unfold known_label. rewrite Hp. by rewrite bool_decide_eq_false_2.
Qed.

(** X9. A label that [POS] lacks raises no error and is not counted:
    for a text with a resolvable token and a duplicate-free [POS] the row
    is produced, each cell being the count of its label over the number
    of resolvable tokens; the counts of the cells add up to the number of
    tokens whose label occurs in [POS], which is at most the number of
    resolvable tokens and equal to it exactly when every resolved label
    occurs in [POS]. *)
Theorem pos_distribution_row_unknown_labels
    (parse_POS : str → option string) (POS : list string)
    (tokens_ : list str) :
  NoDup POS →
  resolvable parse_POS tokens_ ≠ [] →
  ∃ row,
    pos_distribution_row parse_POS POS tokens_ = Ok row
    ∧ (∀ j pos, POS !! j = Some pos →
         ∃ q, row !! j = Some q
           ∧ (q == quotient (length (with_label parse_POS pos tokens_))
                            (length (resolvable parse_POS tokens_)))%Q)
    ∧ sum_list ((λ pos, length (with_label parse_POS pos tokens_)) <$> POS)
      = length (with_known_label parse_POS POS tokens_)
    ∧ length (with_known_label parse_POS POS tokens_)
      ≤ length (resolvable parse_POS tokens_)
    ∧ (length (with_known_label parse_POS POS tokens_)
       = length (resolvable parse_POS tokens_)
       ↔ ∀ t pos, t ∈ tokens_ → parse_POS t = Some pos → pos ∈ POS).
Proof.
  intros Hnd Hres.
  assert (Hsum : sum_list ((λ pos, length (with_label parse_POS pos tokens_))
                           <$> POS)
                 = length (with_known_label parse_POS POS tokens_)).
  { rewrite <- with_known_label_omap, <- occurrences_sum_known by done.
    f_equal. apply list_fmap_ext. intros _ pos _.
    symmetry. apply occurrences_omap. }
  destruct (resolvable parse_POS tokens_) as [|r rs] eqn:Hr; [done|].
  eexists. split.
  { apply (pos_distribution_row_ok _ _ _ (length rs)). by rewrite Hr. }
  split; [|split; [exact Hsum|split]].
  - intros j pos Hj. eexists. split.
    + rewrite list_lookup_fmap, Hj. reflexivity.
    + rewrite Qred_correct. apply fraction_quotient.
  - rewrite <- Hr. apply with_known_label_le.
  - rewrite <- Hr. split.
    + intros Heq t pos Hin Hp. destruct (decide (pos ∈ POS)) as [|Hpos]; [done|].
      pose proof (with_known_label_lt parse_POS POS tokens_ t pos Hin Hp Hpos).
      lia.
    + intros Hall. rewrite <- Hsum. by apply with_label_sum.
Qed.

Lemma pos_distribution_row_unknown_labels_witness :
  ∃ row,
    pos_distribution_row toy_parse_POS ["NOUN"%string] [py "кот"; py "спит"]
    = Ok row
    ∧ length (with_known_label toy_parse_POS ["NOUN"%string]
                [py "кот"; py "спит"])
      ≤ length (resolvable toy_parse_POS [py "кот"; py "спит"]).
Proof.
  destruct (pos_distribution_row_unknown_labels toy_parse_POS
              ["NOUN"%string] [py "кот"; py "спит"])
    as (row & Hrow & _ & _ & Hle & _).
  - apply NoDup_singleton.
  - vm_compute. discriminate.
  - exists row. split; [exact Hrow|exact Hle].
Defined.

(** X10. Every cell of a produced row lies between 0 and 1: for a text
    with a resolvable token the row is produced and each of its entries
    is at least 0 and at most 1. *)
Theorem pos_distribution_row_bounds
    (parse_POS : str → option string) (POS : list string)
    (tokens_ : list str) :
  resolvable parse_POS tokens_ ≠ [] →
  ∃ row,
    pos_distribution_row parse_POS POS tokens_ = Ok row
    ∧ Forall (λ q, (0 <= q)%Q ∧ (q <= 1)%Q) row.
Proof.
  intros Hres.
  destruct (resolvable parse_POS tokens_) as [|r rs] eqn:Hr; [done|].
  eexists. split.
  { apply (pos_distribution_row_ok _ _ _ (length rs)). by rewrite Hr. }
  apply Forall_fmap, Forall_forall. intros pos _. simpl.
  rewrite Qred_correct. split; [apply fraction_nonneg|].
  apply fraction_le_1.
  pose proof (with_label_le parse_POS pos tokens_) as Hle.
  by rewrite Hr in Hle.
Qed.

Lemma pos_distribution_row_bounds_witness :
  ∃ row,
    pos_distribution_row toy_parse_POS toy_POS [py "кот"; py "спит"; py "."]
    = Ok row
    ∧ Forall (λ q, (0 <= q)%Q ∧ (q <= 1)%Q) row.
Proof.
  apply (pos_distribution_row_bounds toy_parse_POS toy_POS
           [py "кот"; py "спит"; py "."]).
  vm_compute. discriminate.
Defined.

(** ** More on the lexical statistics *)

Lemma remove_dups_length_same_elements {K} `{Countable K} (l1 l2 : list K) :
  (∀ x, x ∈ l1 ↔ x ∈ l2) →
  length (remove_dups l1) = length (remove_dups l2).
Proof.
  intros Hel.
  rewrite <- (size_list_to_set (C := gset K) (remove_dups l1))
    by apply NoDup_remove_dups.
  rewrite <- (size_list_to_set (C := gset K) (remove_dups l2))
    by apply NoDup_remove_dups.
  f_equal. apply set_eq. intros x.
  rewrite !elem_of_list_to_set, !elem_of_remove_dups. apply Hel.
Qed.

Lemma remove_dups_length_one {K} `{Countable K} (l : list K) :
  l ≠ [] →
  length (remove_dups l) = 1 ↔ ∀ x y, x ∈ l → y ∈ l → x = y.
Proof.
  intros Hne. split.
  - intros Hlen x y Hx Hy.
    apply elem_of_remove_dups in Hx. apply elem_of_remove_dups in Hy.
    destruct (remove_dups l) as [|z [|z' r]]; try done.
    apply list_elem_of_singleton in Hx, Hy. congruence.
  - intros Hall. pose proof (NoDup_remove_dups l) as Hnd.
    destruct l as [|a l]; [done|].
    pose proof (remove_dups_nonempty a l) as Hpos.
    destruct (remove_dups (a :: l)) as [|z [|z' r]] eqn:Hrd;
      [simpl in Hpos; lia|done|].
    exfalso. apply NoDup_cons in Hnd as [Hz _]. apply Hz.
    assert (Hz1 : z ∈ a :: l)
      by (apply elem_of_remove_dups; rewrite Hrd; left).
    assert (Hz2 : z' ∈ a :: l)
      by (apply elem_of_remove_dups; rewrite Hrd; right; left).
    rewrite (Hall z z' Hz1 Hz2). left.
Qed.

Lemma filter_length_zero {A} (P : A → Prop) `{∀ x, Decision (P x)}
    (l : list A) :
  length (filter P l) = 0 ↔ Forall (λ x, ¬ P x) l.
Proof.
  induction l as [|x l IH]; [by split|]. rewrite filter_cons, Forall_cons.
  case_decide; simpl; [split; [lia|tauto]|]. rewrite IH. tauto.
Qed.

Lemma filter_length_all {A} (P : A → Prop) `{∀ x, Decision (P x)}
    (l : list A) :
  length (filter P l) = length l ↔ Forall P l.
Proof.
  induction l as [|x l IH]; [by split|]. rewrite filter_cons, Forall_cons.
  pose proof (length_filter P l). case_decide; simpl.
  - rewrite <- IH. split; [intros; split; [done|lia]|intros [_ ?]; lia].
  - split; [lia|tauto].
Qed.

Lemma mean_length_by_length (items_ : list str) :
  mean_length items_
  = match length items_ with
    | O => PyNaN
    | S n => PyFloat (Qred (Z.of_nat (sum_list (length <$> items_))
                            # Pos.of_succ_nat n))
    end.
Proof. by destruct items_. Qed.

Lemma foreign_words_ratio_by_length (U : ucd) (tokens : list str) :
  foreign_words_ratio U tokens
  = match length tokens with
    | O => Ok None
    | S n => Ok (Some (Qred (Z.of_nat (length (foreign_tokens U tokens))
                             # Pos.of_succ_nat n)))
    end.
Proof. by destruct tokens. Qed.

Lemma vocabulary_richness_by_length (parse_normal_form : str → str)
    (tokens : list str) :
  vocabulary_richness parse_normal_form tokens
  = match length tokens with
    | O => Ok None
    | S n =>
        Ok (Some (Qred (Z.of_nat (length (remove_dups
                                            (parse_normal_form <$> tokens)))
                        # Pos.of_succ_nat n)))
    end.
Proof.
  destruct tokens as [|t ts]; [done|].
  by rewrite vocabulary_richness_cons, Counter_size.
Qed.

(** X11. The order of the tokens of a text does not matter: two texts
    that are permutations of each other get the same average length, the
    same part-of-speech row (or the same exception), the same foreign-word
    ratio and the same vocabulary richness. *)
Theorem token_order_irrelevant
    (U : ucd) (parse_POS : str → option string)
    (parse_normal_form : str → str) (POS : list string)
    (tokens tokens' : list str) :
  tokens ≡ₚ tokens' →
  avg_length [tokens] = avg_length [tokens']
  ∧ pos_distribution_row parse_POS POS tokens
    = pos_distribution_row parse_POS POS tokens'
  ∧ foreign_words_ratio U tokens = foreign_words_ratio U tokens'
  ∧ vocabulary_richness parse_normal_form tokens
    = vocabulary_richness parse_normal_form tokens'.
Proof.
  intros Hp. pose proof (Permutation_length Hp) as Hlen.
  split; [|split; [|split]].
  - rewrite !avg_length_rows. csimpl. rewrite !mean_length_by_length, Hlen.
    assert (sum_list (length <$> tokens) = sum_list (length <$> tokens'))
      as -> by (by rewrite Hp).
    done.
  - rewrite !pos_distribution_row_counts. apply for_each_ext. intros pos _.
    unfold with_label, resolvable. by rewrite Hp.
  - rewrite !foreign_words_ratio_by_length, Hlen. unfold foreign_tokens.
    assert (length (filter (λ token, pattern_search U FOREIGN_WORD token = true)
                      tokens)
            = length (filter (λ token, pattern_search U FOREIGN_WORD token = true)
                        tokens')) as -> by (by rewrite Hp).
    done.
  - rewrite !vocabulary_richness_by_length, Hlen.
    rewrite (remove_dups_length_same_elements
               (parse_normal_form <$> tokens) (parse_normal_form <$> tokens'));
      [done|].
    intros x. by rewrite Hp.
Qed.

Lemma token_order_irrelevant_witness :
  vocabulary_richness toy_normal_form [py "кот"; py "коты"; py "спит"]
  = vocabulary_richness toy_normal_form [py "спит"; py "кот"; py "коты"].
Proof.
  apply (token_order_irrelevant latin_cyrillic toy_parse_POS toy_normal_form
           toy_POS [py "кот"; py "коты"; py "спит"]
           [py "спит"; py "кот"; py "коты"]).
  symmetry. apply (Permutation_cons_append [py "кот"; py "коты"] (py "спит")).
Defined.

Lemma sum_list_length_bounds (lo hi : nat) (items_ : list str) :
  Forall (λ x, lo ≤ length x ∧ length x ≤ hi) items_ →
  lo * length items_ ≤ sum_list (length <$> items_)
  ∧ sum_list (length <$> items_) ≤ hi * length items_.
Proof.
  induction 1 as [|x l [Hlo Hhi] _ IH]; csimpl; [lia|]. nia.
Qed.

Lemma fraction_between (a b lo hi : nat) :
  lo * S b ≤ a → a ≤ hi * S b →
  (inject_Z (Z.of_nat lo) <= Z.of_nat a # Pos.of_succ_nat b)%Q
  ∧ (Z.of_nat a # Pos.of_succ_nat b <= inject_Z (Z.of_nat hi))%Q.
Proof.
  intros Hlo Hhi. unfold Qle, inject_Z. simpl Qnum. simpl Qden.
  rewrite Zpos_P_of_succ_nat. split; nia.
Qed.

(** X12. The average length lies between the shortest and the longest
    element: if every element of a non-empty sequence has between [lo]
    and [hi] characters, [avg_length] stores a float between [lo] and
    [hi] for it.  A sequence of empty strings thus gets 0, not
    [numpy.nan]. *)
Theorem avg_length_bounds (items_ : list str) (lo hi : nat) :
  items_ ≠ [] →
  Forall (λ x, lo ≤ length x ∧ length x ≤ hi) items_ →
  ∃ q, avg_length [items_] = Ok [[PyFloat q]]
    ∧ (inject_Z (Z.of_nat lo) <= q)%Q
    ∧ (q <= inject_Z (Z.of_nat hi))%Q.
Proof.
  intros Hne Hall. destruct items_ as [|x rest]; [done|].
  exists (Qred (Z.of_nat (sum_list (length <$> x :: rest))
                # Pos.of_succ_nat (length rest))).
  split; [reflexivity|].
  apply sum_list_length_bounds in Hall as [Hlo Hhi].
  change (length (x :: rest)) with (S (length rest)) in Hlo, Hhi.
  rewrite Qred_correct. by apply fraction_between.
Qed.

Lemma avg_length_bounds_witness :
  ∃ q, avg_length [[[]; []]] = Ok [[PyFloat q]]
    ∧ (inject_Z (Z.of_nat 0) <= q)%Q
    ∧ (q <= inject_Z (Z.of_nat 0))%Q.
Proof.
  apply (avg_length_bounds [[]; []] 0 0); [discriminate|].
  repeat constructor.
Defined.

Lemma fraction_eq_0 (a b : nat) :
  (Z.of_nat a # Pos.of_succ_nat b == 0)%Q ↔ a = 0.
Proof. unfold Qeq. simpl. lia. Qed.

Lemma fraction_le_iff (a a' b : nat) :
  (Z.of_nat a # Pos.of_succ_nat b <= Z.of_nat a' # Pos.of_succ_nat b)%Q
  ↔ a ≤ a'.
Proof. unfold Qle. simpl. nia. Qed.

Lemma fraction_eq_iff (a a' b : nat) :
  (Z.of_nat a # Pos.of_succ_nat b == Z.of_nat a' # Pos.of_succ_nat b)%Q
  ↔ a = a'.
Proof. unfold Qeq. simpl. nia. Qed.

(** X13. The extreme values of [foreign_words_ratio]: on a non-empty
    list the ratio is 0 exactly when [FOREIGN_WORD] finds nothing in any
    token, and 1 exactly when it finds a match in every token. *)
Theorem foreign_words_ratio_extremes (U : ucd) (tokens : list str) :
  tokens ≠ [] →
  ∃ q, foreign_words_ratio U tokens = Ok (Some q)
    ∧ ((q == 0)%Q
       ↔ Forall (λ t, pattern_search U FOREIGN_WORD t = false) tokens)
    ∧ ((q == 1)%Q
       ↔ Forall (λ t, pattern_search U FOREIGN_WORD t = true) tokens).
Proof.
  intros Hne. destruct tokens as [|t ts]; [done|].
  rewrite foreign_words_ratio_cons. eexists. split; [reflexivity|].
  rewrite Qred_correct. split.
  - rewrite <- (Forall_iff (λ t, ¬ pattern_search U FOREIGN_WORD t = true))
      by (intros; apply not_true_iff_false).
    unfold foreign_tokens. rewrite <- filter_length_zero.
    apply fraction_eq_0.
  - rewrite fraction_eq_1. unfold foreign_tokens.
    rewrite <- filter_length_all. done.
Qed.

Lemma foreign_words_ratio_extremes_witness :
  ∃ q, foreign_words_ratio latin_cyrillic [py "мир"; py "кот"] = Ok (Some q)
    ∧ (q == 0)%Q.
Proof.
  destruct (foreign_words_ratio_extremes latin_cyrillic [py "мир"; py "кот"])
    as (q & Hq & H0 & _); [discriminate|].
  exists q. split; [exact Hq|]. apply H0.
  apply Forall_cons. split; [vm_compute; reflexivity|].
  apply Forall_cons. split; [vm_compute; reflexivity|].
  apply Forall_nil. exact I.
Defined.

(** X14. The lower end of [vocabulary_richness]: on a list of [n > 0]
    tokens the richness is at least 1/n, and it equals 1/n exactly when
    all tokens have the same normal form. *)
Theorem vocabulary_richness_lower_bound
    (parse_normal_form : str → str) (tokens : list str) :
  tokens ≠ [] →
  ∃ q, vocabulary_richness parse_normal_form tokens = Ok (Some q)
    ∧ (quotient 1 (length tokens) <= q)%Q
    ∧ ((q == quotient 1 (length tokens))%Q
       ↔ ∀ t t', t ∈ tokens → t' ∈ tokens →
           parse_normal_form t = parse_normal_form t').
Proof.
  intros Hne. destruct tokens as [|t ts]; [done|].
  rewrite vocabulary_richness_by_length. simpl length.
  eexists. split; [reflexivity|].
  rewrite Qred_correct, <- fraction_quotient.
  pose proof (remove_dups_nonempty (parse_normal_form t)
                (parse_normal_form <$> ts)) as Hpos.
  change (parse_normal_form t :: (parse_normal_form <$> ts))
    with (parse_normal_form <$> t :: ts) in Hpos.
  split.
  - by apply fraction_le_iff.
  - transitivity (length (remove_dups (parse_normal_form <$> t :: ts)) = 1).
    { apply fraction_eq_iff. }
    rewrite remove_dups_length_one by done. split.
    + intros Hall a b Ha Hb.
      apply Hall; apply list_elem_of_fmap; eauto.
    + intros Hall x y Hx Hy.
      apply list_elem_of_fmap in Hx as (a & -> & Ha).
      apply list_elem_of_fmap in Hy as (b & -> & Hb). by apply Hall.
Qed.

Lemma vocabulary_richness_lower_bound_witness :
  ∃ q, vocabulary_richness toy_normal_form [py "кот"; py "коты"; py "кота"]
       = Ok (Some q)
    ∧ (q == quotient 1 3)%Q.
Proof.
  destruct (vocabulary_richness_lower_bound toy_normal_form
              [py "кот"; py "коты"; py "кота"])
    as (q & Hq & _ & Heq); [discriminate|].
  exists q. split; [exact Hq|]. apply Heq.
  assert (Hall : Forall (λ t, toy_normal_form t = py "кот")
                   [py "кот"; py "коты"; py "кота"]).
  { apply Forall_cons. split; [vm_compute; reflexivity|].
    apply Forall_cons. split; [vm_compute; reflexivity|].
    apply Forall_cons. split; [vm_compute; reflexivity|].
    apply Forall_nil. exact I. }
  intros t t' Ht Ht'. rewrite Forall_forall in Hall.
  rewrite (Hall t Ht), (Hall t' Ht'). reflexivity.
Defined.

(** X15. Words already seen add no type: appending tokens whose normal
    forms all occur among the tokens of a non-empty list leaves the number
    of distinct normal forms unchanged, so the richness becomes that
    number divided by the new token count. *)
Theorem vocabulary_richness_repeated_words
    (parse_normal_form : str → str) (tokens extra : list str) :
  tokens ≠ [] →
  (∀ t, t ∈ extra → ∃ t', t' ∈ tokens
                     ∧ parse_normal_form t = parse_normal_form t') →
  ∃ q, vocabulary_richness parse_normal_form (tokens ++ extra) = Ok (Some q)
    ∧ (q == quotient (length (remove_dups (parse_normal_form <$> tokens)))
                     (length tokens + length extra))%Q.
Proof.
  intros Hne Hex. destruct tokens as [|t ts]; [done|].
  rewrite vocabulary_richness_by_length, length_app.
  change (length (t :: ts) + length extra)
    with (S (length ts + length extra)).
  cbv beta iota. eexists. split; [reflexivity|].
  rewrite Qred_correct, <- fraction_quotient.
  rewrite (remove_dups_length_same_elements
             (parse_normal_form <$> (t :: ts) ++ extra)
             (parse_normal_form <$> t :: ts)); [done|].
  intros x. rewrite fmap_app, elem_of_app. split; [|by left].
  intros [Hx|Hx]; [done|].
  apply list_elem_of_fmap in Hx as (a & -> & Ha).
  destruct (Hex a Ha) as (t' & Ht' & ->). apply list_elem_of_fmap. eauto.
Qed.

Lemma vocabulary_richness_repeated_words_witness :
  ∃ q, vocabulary_richness toy_normal_form
         ([py "кот"; py "спит"] ++ [py "коты"]) = Ok (Some q)
    ∧ (q == quotient 2 3)%Q.
Proof.
  destruct (vocabulary_richness_repeated_words toy_normal_form
              [py "кот"; py "спит"] [py "коты"]) as (q & Hq & Heq).
  - discriminate.
  - intros t Ht. apply list_elem_of_singleton in Ht. subst t.
    exists (py "кот"). split; [left|reflexivity].
  - exists q. split; [exact Hq|]. rewrite Heq. reflexivity.
Defined.

(** ** The patterns on arbitrary texts *)

Lemma match_len_atom (U : ucd) (a : atom) (prev : option char) (c : char)
    (s : list char) :
  match_len U false false (Atom a) prev (c :: s)
  = if atom_match U false a c then Some 1 else None.
Proof.
  unfold match_len. cbn [rmatch]. destruct (atom_match U false a c); [|done].
  cbn [andb]. f_equal. simpl. lia.
Qed.

Lemma scan_atom (U : ucd) (a : atom) (s : list char) (pos : nat)
    (prev : option char) :
  scan U false (Atom a) pos 0 prev s = atom_hits U a pos s.
Proof.
  revert pos prev. induction s as [|c s IH]; intros pos prev; [done|].
  cbn [scan atom_hits]. rewrite match_len_atom.
  destruct (atom_match U false a c); by rewrite IH.
Qed.

Lemma atom_hits_texts (U : ucd) (a : atom) (s : list char) (pos : nat) :
  (atom_hits U a pos s).*2
  = (λ c, [c]) <$> filter (λ c, atom_match U false a c = true) s.
Proof.
  revert pos. induction s as [|c s IH]; intros pos; [done|].
  cbn [atom_hits]. rewrite filter_cons.
  destruct (atom_match U false a c) eqn:Hc.
  - rewrite decide_True by done. csimpl. by rewrite IH.
  - rewrite decide_False by done. apply IH.
Qed.

Lemma atom_hits_covers (U : ucd) (a : atom) (s : list char) (pos i : nat) :
  existsb (λ m : nat * str, (m.1 <=? i) && (i <? m.1 + length m.2))
          (atom_hits U a pos s) = true
  ↔ pos ≤ i ∧ ∃ c, s !! (i - pos) = Some c ∧ atom_match U false a c = true.
Proof.
  revert pos. induction s as [|c s IH]; intros pos.
  - simpl. split; [done|]. by intros [_ (c & Hc & _)].
  - assert (Htail :
      (pos ≤ i ∧ ∃ c', (c :: s) !! (i - pos) = Some c'
                       ∧ atom_match U false a c' = true)
      ↔ (i = pos ∧ atom_match U false a c = true)
        ∨ (S pos ≤ i ∧ ∃ c', s !! (i - S pos) = Some c'
                             ∧ atom_match U false a c' = true)).
    { split.
      - intros [Hle (c' & Hl & Hm)].
        destruct (decide (i = pos)) as [->|Hne].
        + left. rewrite Nat.sub_diag in Hl. simpl in Hl. by simplify_eq.
        + right. split; [lia|]. exists c'. split; [|done].
          replace (i - pos) with (S (i - S pos)) in Hl by lia. done.
      - intros [[-> Hm]|[Hle (c' & Hl & Hm)]].
        + split; [done|]. exists c. rewrite Nat.sub_diag. done.
        + split; [lia|]. exists c'. split; [|done].
          replace (i - pos) with (S (i - S pos)) by lia. done. }
    rewrite Htail, <- IH. cbn [atom_hits].
    destruct (atom_match U false a c) eqn:Hc.
    + cbn [existsb fst snd length]. rewrite orb_true_iff, andb_true_iff.
      rewrite Nat.leb_le, Nat.ltb_lt. split.
      * intros [[? ?]|?]; [left; split; [lia|done]|by right].
      * intros [[-> _]|?]; [left; lia|by right].
    + split; [by right|]. by intros [[_ ?]|?].
Qed.

Lemma oneof_chars (U : ucd) (L : list char) (c : char) :
  atom_match U false (OneOf false (CChar <$> L)) c = true ↔ c ∈ L.
Proof.
  cbn [atom_match xorb]. induction L as [|x L IH].
  - simpl. split; [done|]. intros Hin. by apply elem_of_nil in Hin.
  - csimpl. rewrite orb_true_iff, IH, elem_of_cons.
    unfold casefold. rewrite N.eqb_eq. split; intros [?|?]; auto.
Qed.

Lemma oneof_findall (U : ucd) (L : list char) (text : list char) :
  findall U false (Atom (OneOf false (CChar <$> L))) text
  = (λ c, [c]) <$> filter (λ c, c ∈ L) text.
Proof.
  unfold findall, finditer. rewrite scan_atom, atom_hits_texts. f_equal.
  apply list_filter_iff. intros c. apply oneof_chars.
Qed.

(** X16. [DIVIDING_PUNCTS] and [DIGITS_PUNCTS] count one character at a
    time: on every text [findall] returns, in order, one one-character
    match for each occurrence of a character of the pattern's alphabet,
    so the number of matches is the number of such characters. *)
Theorem single_character_patterns (U : ucd) (text : list char) :
  pattern_findall U DIVIDING_PUNCTS text
  = (λ c, [c]) <$> filter (λ c, c ∈ DIVIDERS) text
  ∧ pattern_findall U DIGITS_PUNCTS text
    = (λ c, [c]) <$> filter (λ c, c ∈ SYMBOLS) text
  ∧ length (pattern_findall U DIVIDING_PUNCTS text)
    = length (filter (λ c, c ∈ DIVIDERS) text)
  ∧ length (pattern_findall U DIGITS_PUNCTS text)
    = length (filter (λ c, c ∈ SYMBOLS) text).
Proof.
  assert (Hd : pattern_findall U DIVIDING_PUNCTS text
               = (λ c, [c]) <$> filter (λ c, c ∈ DIVIDERS) text)
    by apply (oneof_findall U DIVIDERS).
  assert (Hs : pattern_findall U DIGITS_PUNCTS text
               = (λ c, [c]) <$> filter (λ c, c ∈ SYMBOLS) text)
    by apply (oneof_findall U SYMBOLS).
  split; [exact Hd|]. split; [exact Hs|].
  rewrite Hd, Hs, !length_fmap. done.
Qed.

Lemma dividers_not_symbols (c : char) : c ∈ DIVIDERS → c ∉ SYMBOLS.
Proof.
  assert (Hall : Forall (λ c, c ∉ SYMBOLS) DIVIDERS)
    by (apply (bool_decide_unpack _); vm_compute; exact I).
  rewrite Forall_forall in Hall. apply Hall.
Qed.

(** X17. [DIVIDING_PUNCTS] and [DIGITS_PUNCTS] never claim the same
    character: in every text, an index covered by a match of
    [DIVIDING_PUNCTS] is covered by no match of [DIGITS_PUNCTS]. *)
Theorem dividing_digits_disjoint (U : ucd) (text : list char) (i : nat) :
  pattern_covers U DIVIDING_PUNCTS text i = true →
  pattern_covers U DIGITS_PUNCTS text i = false.
Proof.
  intros Hd. apply not_true_iff_false. intros Hs.
  unfold pattern_covers, covers, finditer in Hd, Hs.
  cbn [pat IGNORECASE DIVIDING_PUNCTS DIGITS_PUNCTS] in Hd, Hs.
  rewrite scan_atom in Hd, Hs.
  apply atom_hits_covers in Hd as [_ (c & Hc & Hm)].
  apply atom_hits_covers in Hs as [_ (c' & Hc' & Hm')].
  simplify_eq.
  apply (oneof_chars U DIVIDERS) in Hm. apply (oneof_chars U SYMBOLS) in Hm'.
  by apply (dividers_not_symbols c).
Qed.

Lemma dividing_digits_disjoint_witness :
  pattern_covers latin_cyrillic DIGITS_PUNCTS (py "a+b, c") 3 = false.
Proof.
  apply (dividing_digits_disjoint latin_cyrillic (py "a+b, c") 3).
  vm_compute. reflexivity.
Defined.

Lemma definitive_match_triple (U : ucd) (prev : option char) (a b c : char)
    (rest : list char) :
  a ≠ 0x0A%N → b ≠ 0x0A%N → c ≠ 0x0A%N →
  match_len U false false (pat DEFINITIVE_PUNCTS) prev (a :: b :: c :: rest)
  = Some 3.
Proof.
  intros Ha Hb Hc. unfold match_len.
  cbn [pat DEFINITIVE_PUNCTS alt_of seq_of rmatch atom_match].
  apply N.eqb_neq in Ha, Hb, Hc. rewrite Ha, Hb, Hc. cbn [negb andb].
  f_equal. simpl. lia.
Qed.

Lemma definitive_scan_triple (U : ucd) (pos : nat) (prev : option char)
    (a b c : char) (rest : list char) :
  a ≠ 0x0A%N → b ≠ 0x0A%N → c ≠ 0x0A%N →
  scan U false (pat DEFINITIVE_PUNCTS) pos 0 prev (a :: b :: c :: rest)
  = (pos, [a; b; c])
    :: scan U false (pat DEFINITIVE_PUNCTS) (S (S (S pos))) 0 (Some c) rest.
Proof.
  intros Ha Hb Hc. cbn [scan].
  rewrite definitive_match_triple by done. reflexivity.
Qed.

Lemma list_ind3 {A} (P : list A → Prop) :
  P [] → (∀ a, P [a]) → (∀ a b, P [a; b]) →
  (∀ a b c l, P l → P (a :: b :: c :: l)) →
  ∀ l, P l.
Proof.
  intros H0 H1 H2 H3 l.
  assert (Hall : P l ∧ (∀ a, P (a :: l)) ∧ (∀ a b, P (a :: b :: l))).
  { induction l as [|x l (IH0 & IH1 & IH2)]; [by auto|].
    split; [apply IH1|]. split; [intros; apply IH2|].
    intros a b. by apply H3. }
  apply Hall.
Qed.

Lemma definitive_scan_count (U : ucd) (text : list char) :
  ∀ (prev : option char) (pos : nat),
    Forall (λ c, c ≠ 0x0A%N) text →
    (∀ k, 3 * k ≤ length text →
          k ≤ length (scan U false (pat DEFINITIVE_PUNCTS) pos 0 prev text))
    ∧ (∀ k, length text = 3 * k →
            length (scan U false (pat DEFINITIVE_PUNCTS) pos 0 prev text) = k).
Proof.
  induction text as [|a|a b|a b c rest IH] using list_ind3;
    intros prev pos Hnl.
  - split; intros k Hk; simpl in Hk; [lia|].
    destruct k; [reflexivity|lia].
  - split; intros k Hk; simpl in Hk; lia.
  - split; intros k Hk; simpl in Hk; lia.
  - apply Forall_cons in Hnl as [Ha Hnl]. apply Forall_cons in Hnl as [Hb Hnl].
    apply Forall_cons in Hnl as [Hc Hnl].
    rewrite definitive_scan_triple by done. cbn [length].
    destruct (IH (Some c) (S (S (S pos))) Hnl) as [IHle IHeq].
    split; intros k Hk.
    + destruct k as [|k]; [lia|]. specialize (IHle k). lia.
    + destruct k as [|k]; [lia|]. specialize (IHeq k). lia.
Qed.

(** X18. [DEFINITIVE_PUNCTS] consumes a text three characters at a time,
    whatever the characters are: on a text without line feed it finds at
    least one match per full triple of characters, and exactly one per
    triple when the length is a multiple of three. *)
Theorem definitive_counts_triples (U : ucd) (text : list char) :
  Forall (λ c, c ≠ 0x0A%N) text →
  (∀ k, 3 * k ≤ length text →
        k ≤ length (pattern_findall U DEFINITIVE_PUNCTS text))
  ∧ (∀ k, length text = 3 * k →
          length (pattern_findall U DEFINITIVE_PUNCTS text) = k).
Proof.
  intros Hnl. unfold pattern_findall, findall, finditer.
  rewrite length_fmap. by apply (definitive_scan_count U text None 0).
Qed.

Lemma definitive_counts_triples_witness :
  length (pattern_findall latin_cyrillic DEFINITIVE_PUNCTS (py "кот ел")) = 2.
Proof.
  destruct (definitive_counts_triples latin_cyrillic (py "кот ел"))
    as [Hle Heq].
  - apply (bool_decide_unpack _). vm_compute. exact I.
  - apply Heq. reflexivity.
Defined.

(** ** [FOREIGN_WORD] on whole tokens *)

Lemma repeat_match_all {X} (U : ucd) (ic : bool) (a : atom) (s : list char) :
  ∀ (lo : nat) (prev : option char) (k : option char → str → option X) x,
    lo ≤ length s →
    Forall (λ c, atom_match U ic a c = true) s →
    k (match last s with Some c => Some c | None => prev end) [] = Some x →
    repeat_match U ic a lo None prev s k = Some x.
Proof.
  induction s as [|c s IH]; intros lo prev k x Hlo Hall Hk.
  - simpl in Hlo. assert (lo = 0) as -> by lia. exact Hk.
  - apply Forall_cons in Hall as [Hc Hall]. cbn [repeat_match dec_hi].
    rewrite Hc. rewrite (IH (pred lo) (Some c) k x); [done| |done|].
    + simpl in Hlo. lia.
    + destruct s as [|c' s']; [exact Hk|]. rewrite last_cons_cons in Hk.
      destruct (last (c' :: s')) eqn:Hl; [exact Hk|].
      by apply last_None in Hl.
Qed.

Lemma foreign_match_len (U : ucd) (c : char) (s : list char) :
  Forall (λ c, atom_match U true FOREIGN_CLASS c = true ∧ isword U c = true)
         (c :: s) →
  match_len U true false (pat FOREIGN_WORD) None (c :: s)
  = Some (S (length s)).
Proof.
  intros Hall. unfold match_len.
  cbn [pat FOREIGN_WORD seq_of rmatch].
  assert (Hc : isword U c = true)
    by (apply Forall_cons in Hall as [[_ ?] _]; done).
  unfold at_boundary at 1. rewrite Hc. cbn [xorb].
  apply repeat_match_all.
  - simpl. lia.
  - eapply Forall_impl; [exact Hall|]. by intros ? [? _].
  - assert (Hlast : ∃ z, last (c :: s) = Some z ∧ isword U z = true).
    { destruct (last (c :: s)) as [z|] eqn:Hz.
      - exists z. split; [done|].
        rewrite Forall_forall in Hall.
        apply last_Some_elem_of in Hz. by apply Hall.
      - by apply last_None in Hz. }
    destruct Hlast as (z & -> & Hz).
    unfold at_boundary. rewrite Hz. cbn [xorb andb]. reflexivity.
Qed.

Lemma foreign_scan_none (U : ucd) (s : list char) :
  Forall (λ c, atom_match U true FOREIGN_CLASS c = false) s →
  ∀ pos prev, scan U true (pat FOREIGN_WORD) pos 0 prev s = [].
Proof.
  induction 1 as [|c s Hc _ IH]; intros pos prev.
  - cbn [scan]. unfold match_len. cbn [pat FOREIGN_WORD seq_of rmatch].
    destruct (at_boundary U prev []); reflexivity.
  - cbn [scan].
    assert (Hm : ∀ b, match_len U true b (pat FOREIGN_WORD) prev (c :: s)
                      = None).
    { intros b. unfold match_len. cbn [pat FOREIGN_WORD seq_of rmatch].
      destruct (at_boundary U prev (c :: s)); [|done].
      cbn [repeat_match]. change (atom_match U true _ c)
        with (atom_match U true FOREIGN_CLASS c). by rewrite Hc. }
    rewrite Hm. apply IH.
Qed.

Lemma latin_letters_accepted :
  Forall (λ c, atom_match latin_cyrillic true FOREIGN_CLASS c = true
               ∧ isword latin_cyrillic c = true) LATIN_LETTERS.
Proof. apply (bool_decide_unpack _). vm_compute. exact I. Qed.

Lemma native_chars_refused :
  Forall (λ c, atom_match latin_cyrillic true FOREIGN_CLASS c = false)
         NATIVE_CHARS.
Proof. apply (bool_decide_unpack _). vm_compute. exact I. Qed.

(** X19. A word in ASCII letters is foreign: [FOREIGN_WORD] finds a
    match in every non-empty token made of the letters A-Z and a-z only,
    in either case (run with the tables of Basic Latin and Cyrillic). *)
Theorem foreign_word_latin (token : list char) :
  token ≠ [] →
  Forall (λ c, c ∈ LATIN_LETTERS) token →
  pattern_search latin_cyrillic FOREIGN_WORD token = true.
Proof.
  intros Hne Hall. destruct token as [|c s]; [done|].
  unfold pattern_search, search, finditer. cbn [IGNORECASE FOREIGN_WORD scan].
  change (compile ?r ?f).(pat) with (pat FOREIGN_WORD).
  rewrite foreign_match_len; [done|].
  pose proof latin_letters_accepted as Hacc. rewrite Forall_forall in Hacc.
  eapply Forall_impl; [exact Hall|]. intros z Hz. by apply Hacc.
Qed.

Lemma foreign_word_latin_witness :
  pattern_search latin_cyrillic FOREIGN_WORD (py "Hello") = true.
Proof.
  apply (foreign_word_latin (py "Hello")); [discriminate|].
  apply (bool_decide_unpack _). vm_compute. exact I.
Defined.

(** X20. Native words and numbers are not foreign: [FOREIGN_WORD] finds
    no match in a token made only of Russian letters (а-я, А-Я, ё, Ё),
    decimal digits and underscores (run with the tables of Basic Latin
    and Cyrillic). *)
Theorem foreign_word_native (token : list char) :
  Forall (λ c, c ∈ NATIVE_CHARS) token →
  pattern_search latin_cyrillic FOREIGN_WORD token = false.
Proof.
  intros Hall. unfold pattern_search, search, finditer.
  cbn [IGNORECASE FOREIGN_WORD].
  change (compile ?r ?f).(pat) with (pat FOREIGN_WORD).
  rewrite foreign_scan_none; [done|].
  pose proof native_chars_refused as Href. rewrite Forall_forall in Href.
  eapply Forall_impl; [exact Hall|]. intros z Hz. by apply Href.
Qed.

Lemma foreign_word_native_witness :
  pattern_search latin_cyrillic FOREIGN_WORD (py "Ёлка_2024") = false.
Proof.
  apply (foreign_word_native (py "Ёлка_2024")).
  apply (bool_decide_unpack _). vm_compute. exact I.
Defined.

(** ** [punctuations_distribution] on every input *)

Lemma ratio_value_cases (count all_count : nat) :
  ratio_value count all_count = PyInt 0
  ∨ ∃ q, ratio_value count all_count = PyFloat q ∧ (0 <= q)%Q.
Proof.
  destruct all_count as [|n]; [by left|]. right. eexists.
  split; [reflexivity|]. rewrite Qred_correct. apply fraction_nonneg.
Qed.

(** X21. [punctuations_distribution] never raises: for every text, null
    and empty included, and whatever the master and category patterns
    find, it returns a dictionary, and every value in it is the int 0 or
    a non-negative float. *)
Theorem punctuations_distribution_total
    (U : ucd) (PUNCTUATIONS HIGHLIGHT_PUNCTS SMILES_PUNCTS : pattern)
    (text : option (list char)) :
  ∃ d,
    punctuations_distribution U PUNCTUATIONS HIGHLIGHT_PUNCTS SMILES_PUNCTS
      text = Ok d
    ∧ ∀ k v, d !! k = Some v →
        v = PyInt 0 ∨ ∃ q, v = PyFloat q ∧ (0 <= q)%Q.
Proof.
  assert (Hfast : ∀ k v, fromkeys columns (PyInt 0) !! k = Some v →
                         v = PyInt 0 ∨ ∃ q, v = PyFloat q ∧ (0 <= q)%Q).
  { intros k v Hl. left. unfold fromkeys, columns in Hl.
    apply elem_of_list_to_map_2 in Hl.
    apply list_elem_of_fmap in Hl as (k' & Heq & _). by simplify_eq. }
  destruct text as [[|c text]|].
  - eexists. split; [reflexivity|exact Hfast].
  - eexists. split; [apply punctuations_distribution_cons|].
    intros k v Hl.
    repeat (apply lookup_insert_Some in Hl as [[_ <-]|[_ Hl]];
            [apply ratio_value_cases|]).
    by rewrite lookup_empty in Hl.
  - eexists. split; [reflexivity|exact Hfast].
Qed.

(** X22. Without recognized punctuation every share is the int 0: for a
    non-empty text in which the master pattern finds nothing, the result
    is the dictionary of the five category names, each mapped to 0, and
    no division takes place. *)
Theorem punctuations_distribution_without_marks
    (U : ucd) (PUNCTUATIONS HIGHLIGHT_PUNCTS SMILES_PUNCTS : pattern)
    (text : list char) :
  text ≠ [] →
  pattern_findall U PUNCTUATIONS text = [] →
  punctuations_distribution U PUNCTUATIONS HIGHLIGHT_PUNCTS SMILES_PUNCTS
    (Some text)
  = Ok (fromkeys (columns ++ ["digits_puncts"%string]) (PyInt 0)).
Proof.
  intros Hne Hn. destruct text as [|c text]; [done|].
  by apply punctuations_distribution_no_punctuation.
Qed.

Lemma punctuations_distribution_without_marks_witness :
  punctuations_distribution latin_cyrillic DIVIDING_PUNCTS DIGITS_PUNCTS
    DIGITS_PUNCTS (Some (py "кот ел"))
  = Ok (fromkeys (columns ++ ["digits_puncts"%string]) (PyInt 0)).
Proof.
  apply (punctuations_distribution_without_marks latin_cyrillic
           DIVIDING_PUNCTS DIGITS_PUNCTS DIGITS_PUNCTS (py "кот ел"));
    [discriminate|vm_compute; reflexivity].
Defined.

(** X23. The dividing and symbolic shares count characters: for a
    non-empty text the entries ["dividing_puncts"] and ["digits_puncts"]
    are the number of characters of the text in the respective alphabet
    over the number of marks found by the master pattern (the int 0 when
    that number is 0). *)
Theorem punctuations_distribution_character_shares
    (U : ucd) (PUNCTUATIONS HIGHLIGHT_PUNCTS SMILES_PUNCTS : pattern)
    (text : list char) :
  text ≠ [] →
  ∃ d,
    punctuations_distribution U PUNCTUATIONS HIGHLIGHT_PUNCTS SMILES_PUNCTS
      (Some text) = Ok d
    ∧ d !! "dividing_puncts"%string
      = Some (ratio_value (length (filter (λ c, c ∈ DIVIDERS) text))
                          (length (pattern_findall U PUNCTUATIONS text)))
    ∧ d !! "digits_puncts"%string
      = Some (ratio_value (length (filter (λ c, c ∈ SYMBOLS) text))
                          (length (pattern_findall U PUNCTUATIONS text))).
Proof.
  intros Hne.
  destruct (punctuations_distribution_lookup U PUNCTUATIONS HIGHLIGHT_PUNCTS
              SMILES_PUNCTS text Hne) as (d & Hd & _ & H2 & _ & _ & H5).
  exists d. split; [exact Hd|].
  assert (Hdiv : pattern_findall U DIVIDING_PUNCTS text
                 = (λ c, [c]) <$> filter (λ c, c ∈ DIVIDERS) text)
    by apply (oneof_findall U DIVIDERS).
  assert (Hsym : pattern_findall U DIGITS_PUNCTS text
                 = (λ c, [c]) <$> filter (λ c, c ∈ SYMBOLS) text)
    by apply (oneof_findall U SYMBOLS).
  rewrite Hdiv, length_fmap in H2. rewrite Hsym, length_fmap in H5.
  split; [exact H2|exact H5].
Qed.

Lemma punctuations_distribution_character_shares_witness :
  ∃ d,
    punctuations_distribution latin_cyrillic comma_bang_runs DIVIDING_PUNCTS
      DIGITS_PUNCTS (Some greeting) = Ok d
    ∧ d !! "dividing_puncts"%string = Some (PyFloat (1 # 2)).
Proof.
  destruct (punctuations_distribution_character_shares latin_cyrillic
              comma_bang_runs DIVIDING_PUNCTS DIGITS_PUNCTS greeting)
    as (d & Hd & H2 & _); [discriminate|].
  exists d. split; [exact Hd|]. rewrite H2. vm_compute. reflexivity.
Defined.
